(** * Silence removal: interval algorithms of [silence_removal.py]

    A shallow embedding of the interval-level code of the script:
    [load_config], [get_silent_segments], [remove_silence_from_video],
    [process_long_video] and the dispatch in [main].

    Conventions.
    - Python numbers (JSON numbers, seconds as [float], milliseconds as
      [int]) are exact rationals [Q]; [int] values that the source keeps
      as integers (pydub milliseconds, [range] indices) are [Z].  Every
      comparison the source performs is decided by [Qle_bool] or
      [Qeq_bool], so two numbers that Python's [==] identifies are
      identified here by [Qeq] (written [==]).  This is exact wherever
      the code compares and copies numbers; the two places that compute
      with floats are embedded a second time over binary64, in module
      [Binary64].
    - A Python exception is a [Raise] in the [result] monad; list
      indexing is fallible ([py_index]) exactly as in Python.
    - The media libraries (moviepy, pydub) are collaborators: an
      [AudioSegment] carries its length and the answer of
      [detect_nonsilent] on it, a [VideoFileClip] its duration and the
      audio of each of its sub-clips.  What is written to disk is
      recorded as a list of [event]s. *)

From Stdlib Require Import QArith Qabs Lqa Lia Floats Uint63.
From Stdlib Require Import Sorting.Sorted Sorting.Permutation.
From stdpp Require Import base list strings gmap.

Local Open Scope Z_scope.

(** ** Python primitives *)

Inductive exn : Type :=
| IndexError
| TypeError
| FileNotFoundError (msg : string)
| ValueError (msg : string)
| OverflowError.

Inductive result (A : Type) : Type :=
| Ok (a : A)
| Raise (e : exn).
Arguments Ok {A} a.
Arguments Raise {A} e.

#[global] Instance result_ret : MRet result := fun A a => Ok a.
#[global] Instance result_bind : MBind result := fun A B f m =>
  match m with
  | Ok a => f a
  | Raise e => Raise e
  end.

(** [for x in l: acc = body(acc, x)] with a body that may raise. *)
Fixpoint py_for {A B : Type} (body : B -> A -> result B) (acc : B) (l : list A)
  : result B :=
  match l with
  | [] => Ok acc
  | x :: l' => acc' ← body acc x; py_for body acc' l'
  end.

(** Truth value of a list: empty lists are false. *)
Definition py_bool {A : Type} (l : list A) : bool :=
  match l with
  | [] => false
  | _ :: _ => true
  end.

Definition py_len {A : Type} (l : list A) : Z := Z.of_nat (length l).

(** Position addressed by the index [i] in a list of length [n]:
    negative indices count from the end, anything else out of range is
    an [IndexError]. *)
Definition py_pos (n i : Z) : result nat :=
  let j := if i <? 0 then n + i else i in
  if (0 <=? j) && (j <? n) then Ok (Z.to_nat j) else Raise IndexError.

(** [l[i]] *)
Definition py_index {A : Type} (l : list A) (i : Z) : result A :=
  j ← py_pos (py_len l) i;
  match l !! j with
  | Some x => Ok x
  | None => Raise IndexError
  end.

(** [l[i] = x] *)
Definition py_setitem {A : Type} (l : list A) (i : Z) (x : A) : result (list A) :=
  j ← py_pos (py_len l) i;
  Ok (<[j := x]> l).

(** [range(start, stop, step)] for a positive [step]. *)
Definition py_range (start stop step : Z) : list Z :=
  if start <? stop
  then map (fun k : nat => start + Z.of_nat k * step)
           (seq 0 (Z.to_nat ((stop - start - 1) / step + 1)))
  else [].

(** [int(x)]: truncation towards zero. *)
Definition py_int (x : Q) : Z := Z.quot (Qnum x) (Zpos (Qden x)).

Definition Qlt_bool (x y : Q) : bool := negb (Qle_bool y x).

(** [max(a, b)] returns [b] only when [b > a]; [min(a, b)] returns [b]
    only when [b < a]. *)
Definition py_max (a b : Q) : Q := if Qlt_bool a b then b else a.
Definition py_min (a b : Q) : Q := if Qlt_bool b a then b else a.

(** ** Time intervals *)

(** A [(start, end)] tuple of seconds. *)
Abbreviation segment := (Q * Q)%type (only parsing).

(** Tuple comparison [a < b]: the first components decide unless they are
    equal, then the second ones do. *)
Definition tuple_lt (a b : segment) : bool :=
  if Qeq_bool a.1 b.1 then Qlt_bool a.2 b.2 else Qlt_bool a.1 b.1.

(** [list.sort()] is a stable sort driven by [<].  Any stable sort computes
    the same list; this one inserts from the right, each element in front
    of the first one that is not smaller. *)
Fixpoint sort_insert (x : segment) (l : list segment) : list segment :=
  match l with
  | [] => [x]
  | y :: l' => if tuple_lt y x then y :: sort_insert x l' else x :: y :: l'
  end.

Fixpoint py_sort (l : list segment) : list segment :=
  match l with
  | [] => []
  | x :: l' => sort_insert x (py_sort l')
  end.

(** ** Collaborators *)

(** A loaded [pydub.AudioSegment]: [len(audio)] in milliseconds and the
    answer of [detect_nonsilent(audio, min_silence_len, silence_thresh)],
    a list of [[start, end]] pairs in milliseconds. *)
Record AudioSegment : Type := {
  len_ms : Z;
  detect_nonsilent : Z -> Q -> list (Z * Z)
}.

(** A [moviepy.VideoFileClip]: its [duration], the audio track of the
    whole clip and the audio track of [video.subclip(start, end)]. *)
Record VideoFileClip : Type := {
  duration : Q;
  audio : AudioSegment;
  subclip_audio : Q -> Q -> AudioSegment
}.

(** A clip is described by the ranges of the source it plays, in order:
    the opened video is [[(0, duration)]], [video.subclip(s, e)] is
    [[(s, e)]] and [concatenate_videoclips] appends. *)
Abbreviation clip := (list (Q * Q)) (only parsing).

Definition whole (video : VideoFileClip) : clip := [(0%Q, duration video)].
Definition subclip (start end_ : Q) : clip := [(start, end_)].
Definition concatenate_videoclips (clips : list clip) : clip := concat clips.

(** What the functions do to the outside world: a message printed, a
    clip handed to [write_videofile], the video closed. *)
Inductive event : Type :=
| Printed (msg : string)
| Written (content : clip)
| Closed.

(** ** [load_config] *)

Inductive json : Type :=
| JNum (q : Q)
| JStr (s : string).

(** The outcome of [open(config_path)] followed by [json.load]. *)
Inductive config_file : Type :=
| Missing
| Malformed
| Parsed (config : gmap string json).

Section LoadConfig.

(** [os.path.dirname] *)
Variable dirname : string -> string.

Definition set_silence_threshold (config : gmap string json)
  : result (gmap string json) :=
  match config !! "silence_threshold" with
  | None => Ok (<["silence_threshold" := JNum (-50)%Q]> config)
  | Some (JNum t) =>
      if Qlt_bool 0 t
      then Ok (<["silence_threshold" := JNum (- Qabs (t * 100))%Q]> config)
      else Ok config
  | Some (JStr _) => Raise TypeError
  end.

Definition set_min_silence_length (config : gmap string json)
  : gmap string json :=
  match config !! "min_silence_length" with
  | None => <["min_silence_length" := JNum (1 # 2)%Q]> config
  | Some _ => config
  end.

Definition set_output_path (config : gmap string json)
  : result (gmap string json) :=
  match config !! "output_path", config !! "input_path" with
  | None, Some (JStr p) => Ok (<["output_path" := JStr (dirname p)]> config)
  | None, Some (JNum _) => Raise TypeError
  | _, _ => Ok config
  end.

Definition load_config (config_path : string) (file : config_file)
  : result (gmap string json) :=
  match file with
  | Missing =>
      Raise (FileNotFoundError
               ("Configuration file not found at " +:+ config_path))
  | Malformed =>
      Raise (ValueError
               ("Invalid JSON format in configuration file at " +:+ config_path))
  | Parsed config =>
      config ← set_silence_threshold config;
      let config := set_min_silence_length config in
      set_output_path config
  end.

End LoadConfig.

Local Open Scope Q_scope.

(** ** [get_silent_segments] *)

Definition to_seconds (r : Z * Z) : segment :=
  (inject_Z r.1 / 1000, inject_Z r.2 / 1000).

Definition get_silent_segments (audio : AudioSegment)
    (silence_threshold min_silence_length : Q) : result (list segment) :=
  let min_silence_ms := py_int (min_silence_length * 1000) in
  let non_silent_ranges_ms :=
    detect_nonsilent audio min_silence_ms silence_threshold in
  let non_silent_ranges := map to_seconds non_silent_ranges_ms in
  let silent_segments : list segment := [] in
  (* silence at the beginning *)
  silent_segments ←
    (if py_bool non_silent_ranges then
       first ← py_index non_silent_ranges 0;
       if Qlt_bool 0 first.1
       then Ok (silent_segments ++ [(0, first.1)])
       else Ok silent_segments
     else Ok silent_segments);
  (* silence between non-silent parts *)
  silent_segments ←
    py_for (fun silent_segments i =>
              a ← py_index non_silent_ranges i;
              b ← py_index non_silent_ranges (i + 1)%Z;
              Ok (silent_segments ++ [(a.2, b.1)]))
           silent_segments
           (py_range 0 (py_len non_silent_ranges - 1) 1);
  (* silence at the end *)
  let audio_length_sec := inject_Z (len_ms audio) / 1000 in
  silent_segments ←
    (if py_bool non_silent_ranges then
       last ← py_index non_silent_ranges (-1);
       if Qlt_bool last.2 audio_length_sec
       then Ok (silent_segments ++ [(last.2, audio_length_sec)])
       else Ok silent_segments
     else Ok silent_segments);
  (* drop the segments shorter than the minimum length *)
  Ok (List.filter (fun s : segment => Qle_bool min_silence_length (s.2 - s.1))
                  silent_segments).

(** ** [remove_silence_from_video] *)

(** The list of segments to keep, as built for a non-empty
    [silent_segments]. *)
Definition keep_segments (silent_segments : list segment) (video_duration : Q)
  : result (list segment) :=
  let keep_segments : list segment := [] in
  (* from the start to the first silence *)
  first ← py_index silent_segments 0;
  let keep_segments :=
    if Qlt_bool 0 first.1 then keep_segments ++ [(0, first.1)]
    else keep_segments in
  (* between silences *)
  keep_segments ←
    py_for (fun keep_segments i =>
              a ← py_index silent_segments i;
              b ← py_index silent_segments (i + 1)%Z;
              Ok (keep_segments ++ [(a.2, b.1)]))
           keep_segments
           (py_range 0 (py_len silent_segments - 1) 1);
  (* from the last silence to the end *)
  last ← py_index silent_segments (-1);
  Ok (if Qlt_bool last.2 video_duration
      then keep_segments ++ [(last.2, video_duration)]
      else keep_segments).

Definition remove_silence_from_video (video : VideoFileClip)
    (silent_segments : list segment) : result (list event) :=
  if negb (py_bool silent_segments) then
    Ok [Printed "No silent segments to remove.";
        Written (whole video);
        Closed]
  else
    keep_segments ← keep_segments silent_segments (duration video);
    let clips := map (fun s : segment => subclip s.1 s.2) keep_segments in
    if negb (py_bool clips) then
      Ok [Printed "Warning: No segments to keep after removing silence.";
          Closed]
    else
      let final_clip := concatenate_videoclips clips in
      Ok [Written final_clip; Closed].

(** ** [process_long_video] *)

Definition chunk_size : Z := 600.

(** The analysis windows [(start, end)]; [start] is an [int]. *)
Definition chunks (duration : Q) : list (Z * Q) :=
  map (fun i : Z => (i, py_min (inject_Z (i + chunk_size)) duration))
      (py_range 0 (py_int duration) chunk_size).

(** Detection on every chunk, each result shifted by the chunk start. *)
Definition all_silent_segments (video : VideoFileClip)
    (silence_threshold min_silence_length : Q) : result (list segment) :=
  py_for (fun all_silent_segments (c : Z * Q) =>
            let '(start, end_) := c in
            let chunk_audio := subclip_audio video (inject_Z start) end_ in
            silent_segments ←
              get_silent_segments chunk_audio silence_threshold
                                  min_silence_length;
            let adjusted_segments :=
              map (fun s : segment => (s.1 + inject_Z start, s.2 + inject_Z start))
                  silent_segments in
            Ok (all_silent_segments ++ adjusted_segments))
         [] (chunks (duration video)).

(** The merge of overlapping silent segments. *)
Definition merged_segments (all_silent_segments : list segment)
  : result (list segment) :=
  if py_bool all_silent_segments then
    let all_silent_segments := py_sort all_silent_segments in
    first ← py_index all_silent_segments 0;
    py_for (fun merged_segments (segment : segment) =>
              last ← py_index merged_segments (-1);
              if Qle_bool segment.1 last.2
              then py_setitem merged_segments (-1)
                              (last.1, py_max last.2 segment.2)
              else Ok (merged_segments ++ [segment]))
           [first] (drop 1 all_silent_segments)
  else Ok [].

Definition process_long_video (video : VideoFileClip)
    (silence_threshold min_silence_length : Q) : result (list event) :=
  all ← all_silent_segments video silence_threshold min_silence_length;
  merged ← merged_segments all;
  remove_silence_from_video video merged.

(** ** The dispatch of [main] *)

(** Whole-track processing, for videos of at most 30 minutes. *)
Definition process_short_video (video : VideoFileClip)
    (silence_threshold min_silence_length : Q) : result (list event) :=
  silent_segments ←
    get_silent_segments (audio video) silence_threshold min_silence_length;
  remove_silence_from_video video silent_segments.

Definition process_video (video : VideoFileClip)
    (silence_threshold min_silence_length : Q) : result (list event) :=
  if Qlt_bool 1800 (duration video)
  then process_long_video video silence_threshold min_silence_length
  else process_short_video video silence_threshold min_silence_length.

(** ** Structural descriptions used by the proofs *)

(** The gap between each pair of neighbours of a list of intervals. *)
Fixpoint between (l : list segment) : list segment :=
  match l with
  | a :: (b :: _) as tl => (a.2, b.1) :: between tl
  | _ => []
  end.

(** The left-to-right sweep over a sorted list, [cur] being the last
    merged segment. *)
Fixpoint sweep (cur : segment) (rest : list segment) : list segment :=
  match rest with
  | [] => [cur]
  | s :: rest' =>
      if Qle_bool s.1 cur.2
      then sweep (cur.1, py_max cur.2 s.2) rest'
      else cur :: sweep s rest'
  end.

(** What the two complement constructions of the source build from a
    list of intervals and a total length: the stretch before the first
    interval, the gaps between neighbours, the stretch after the last. *)
Definition gaps (l : list segment) (total : Q) : list segment :=
  match l with
  | [] => []
  | first :: _ =>
      let last := List.last l first in
      (if Qlt_bool 0 first.1 then [(0, first.1)] else [])
        ++ between l
        ++ (if Qlt_bool last.2 total then [(last.2, total)] else [])
  end.

(** The merge once the input is sorted. *)
Definition merge_sorted (l : list segment) : list segment :=
  match l with
  | [] => []
  | first :: rest => sweep first rest
  end.

(** SilenceDetector as the specification words it: the complement of the
    non-silent runs within [[0, duration]], the whole track when there is
    no run, intervals shorter than [min_duration] discarded. *)
Definition complement_gaps (runs : list segment) (duration : Q) : list segment :=
  match runs with
  | [] => [(0, duration)]
  | first :: _ =>
      let last := List.last runs first in
      (if Qlt_bool 0 first.1 then [(0, first.1)] else [])
        ++ between runs
        ++ (if Qlt_bool last.2 duration then [(last.2, duration)] else [])
  end.

Definition long_enough (min_duration : Q) (s : segment) : bool :=
  Qle_bool min_duration (s.2 - s.1).

(** [detect(track, threshold, minDuration)] of the specification, on the
    non-silent runs of the track. *)
Definition detect (runs : list segment) (duration min_duration : Q)
  : list segment :=
  List.filter (long_enough min_duration) (complement_gaps runs duration).

(** Interval semantics: [s] covers the instants of [[start, end)]. *)
Definition covers (s : segment) (t : Q) : bool :=
  Qle_bool s.1 t && Qlt_bool t s.2.

Definition covered (l : list segment) (t : Q) : Prop :=
  exists s, In s l /\ covers s t = true.

(** Number of intervals of [l] that contain [t]. *)
Definition count_cover (l : list segment) (t : Q) : nat :=
  length (List.filter (fun s => covers s t) l).

(** Equality of intervals as Python's [==] sees it. *)
Definition seg_eq (a b : segment) : Prop := a.1 == b.1 /\ a.2 == b.2.

(** Sequences equal up to [seg_eq]. *)
Definition segs_eq (l l' : list segment) : Prop := Forall2 seg_eq l l'.

(** The numbers that occur in a list of intervals, and the lists in which
    numerically equal numbers are the same number. *)
Definition end_points (l : list segment) : list Q :=
  flat_map (fun s : segment => [s.1; s.2]) l.

Definition canonical (l : list segment) : Prop :=
  forall x y, In x (end_points l) -> In y (end_points l) -> x == y -> x = y.

(** Order by start alone. *)
Definition start_le (a b : segment) : Prop := a.1 <= b.1.

(** [next] begins strictly after [prev] has ended. *)
Definition apart (prev next : segment) : Prop := prev.2 < next.1.

(** Tuple order [a <= b], that is, not [b < a]. *)
Definition tuple_le (a b : segment) : Prop := tuple_lt b a = false.

(** [1] when [t] lies in [[a, b)], else [0]. *)
Definition ind (a b t : Q) : nat := if covers (a, b) t then 1%nat else 0%nat.

(** A silence list as SegmentPlanner expects it: times from zero on, no
    interval reversed, each one ending before the next starts, all within
    the total duration. *)
Record silences_ok (S : list segment) (total : Q) : Prop := {
  ok_nonneg : Forall (fun s : segment => 0 <= s.1) S;
  ok_ordered : Forall (fun s : segment => s.1 <= s.2) S;
  ok_disjoint : Sorted (fun a b : segment => a.2 <= b.1) S;
  ok_bounded : Forall (fun s : segment => s.2 <= total) S
}.

(** An interval that violates the TimeInterval invariant. *)
Definition malformed (s : segment) : Prop := s.2 <= s.1 \/ s.1 < 0.

(** The local variables of [get_silent_segments]. *)
Definition non_silent_ranges (a : AudioSegment) (thr min_len : Q)
  : list segment :=
  map to_seconds (detect_nonsilent a (py_int (min_len * 1000)) thr).

Definition audio_length_sec (a : AudioSegment) : Q :=
  inject_Z (len_ms a) / 1000.

(** What [write_videofile] received, if it was called. *)
Fixpoint output_of (trace : list event) : option clip :=
  match trace with
  | [] => None
  | Written c :: _ => Some c
  | _ :: trace' => output_of trace'
  end.

(** The ranges of the source that end up in the output file. *)
Definition kept (video : VideoFileClip) (silent_segments : list segment) : clip :=
  match remove_silence_from_video video silent_segments with
  | Ok trace => default [] (output_of trace)
  | Raise _ => []
  end.

(** Chunked detection followed by the merge. *)
Definition chunked_detection (video : VideoFileClip) (thr min_len : Q)
  : result (list segment) :=
  all ← all_silent_segments video thr min_len;
  merged_segments all.

(** A chunk as an interval of seconds. *)
Definition chunk_interval (c : Z * Q) : segment := (inject_Z c.1, c.2).

(** ** A synthetic recording *)

(** A recording given by its loud stretches in milliseconds, with an
    idealised detector: on any window it reports exactly the loud
    stretches that fall into the window. *)
Definition clip_runs (loud : list (Z * Z)) (lo hi : Z) : list (Z * Z) :=
  map (fun r : Z * Z => (Z.max r.1 lo - lo, Z.min r.2 hi - lo)%Z)
      (List.filter (fun r : Z * Z => (r.1 <? hi)%Z && (lo <? r.2)%Z) loud).

Definition to_ms (t : Q) : Z := py_int (t * 1000).

Definition recording (length_ms : Z) (loud : list (Z * Z)) : VideoFileClip :=
  {| duration := inject_Z length_ms / 1000;
     audio := {| len_ms := length_ms; detect_nonsilent := fun _ _ => loud |};
     subclip_audio := fun s e =>
       {| len_ms := to_ms e - to_ms s;
          detect_nonsilent := fun _ _ => clip_runs loud (to_ms s) (to_ms e) |} |}.

(** A track that is silent throughout. *)
Definition silent_track : VideoFileClip := recording 5000 [].

(** Forty minutes of sound followed by half a second of silence. *)
Definition silent_tail : VideoFileClip := recording 2400500 [(0, 2400000)%Z].

(** A long track with one silence on [[595, 615]], across the first chunk
    boundary, and one with a silence on [[100, 105]], inside a chunk. *)
Definition straddling : VideoFileClip :=
  recording 2000000 [(0, 595000); (615000, 2000000)]%Z.
Definition isolated : VideoFileClip :=
  recording 2000000 [(0, 100000); (105000, 2000000)]%Z.

(** ** Further notions *)

(** [create_subclip] hands its arguments to [video.subclip]. *)
Definition create_subclip (start_time end_time : Q) : clip :=
  subclip start_time end_time.



(** Summed length of a list of intervals. *)
Definition total_length (l : list segment) : Q :=
  fold_right (fun (s : segment) acc => (s.2 - s.1) + acc) 0 l.

(** The detector answers with runs in timeline order, none reversed, each
    ending before the next starts, all within the audio. *)
Definition runs_ok (a : AudioSegment) (thr min_len : Q) : Prop :=
  silences_ok (non_silent_ranges a thr min_len) (audio_length_sec a).


(** The [k]-th analysis window. *)
Definition nth_chunk (total : Q) (k : nat) : Z * Q :=
  ((0 + Z.of_nat k * chunk_size)%Z,
   py_min (inject_Z (0 + Z.of_nat k * chunk_size + chunk_size)) total).

(** The number of analysis windows. *)
Definition chunk_count (total : Q) : nat :=
  if (0 <? py_int total)%Z
  then Z.to_nat ((py_int total - 0 - 1) / chunk_size + 1)
  else 0%nat.


(** * The two computations in binary64

    Everything above reads Python's [float] as an exact rational.  That
    is faithful wherever the code only compares and copies numbers.  Two
    places compute with them: [get_silent_segments] divides milliseconds
    by 1000 and subtracts, and [load_config] multiplies the threshold by
    100.  This module embeds those two functions once more, over IEEE
    754 binary64 ([PrimFloat]) and over the whole of what [json.load]
    can return. *)

Module Binary64.

(** [float(z)], exact for [|z| < 2^53]. *)
Definition float_of_int (z : Z) : float :=
  if (z <? 0)%Z
  then PrimFloat.opp (PrimFloat.of_uint63 (Uint63.of_Z (- z)))
  else PrimFloat.of_uint63 (Uint63.of_Z z).

(** [a / b] on two [int]s: Python rounds the exact quotient once, which
    for operands below [2^53] is the quotient of the two floats. *)
Definition true_div (a b : Z) : float :=
  PrimFloat.div (float_of_int a) (float_of_int b).


(** [int(x)]: truncation towards zero; not a number and the infinities
    have no integer. *)
Definition int_of_float (x : float) : result Z :=
  match Prim2SF x with
  | S754_zero _ => Ok 0%Z
  | S754_finite s m e =>
      let magnitude :=
        match e with
        | Z0 => Zpos m
        | Zpos p => (Zpos m * 2 ^ Zpos p)%Z
        | Zneg p => (Zpos m / 2 ^ Zpos p)%Z
        end in
      Ok (if s then (- magnitude)%Z else magnitude)
  | S754_infinity _ => Raise OverflowError
  | S754_nan => Raise (ValueError "cannot convert float NaN to integer")
  end.

(** A [(start, end)] tuple of seconds. *)
Abbreviation fsegment := (float * float)%type (only parsing).

(** ** [get_silent_segments] *)

Record AudioSegment : Type := {
  len_ms : Z;
  detect_nonsilent : Z -> float -> list (Z * Z)
}.

Definition to_seconds (r : Z * Z) : fsegment :=
  (true_div r.1 1000, true_div r.2 1000).

(** The integer [0] that opens the leading segment is written as the
    float [0]: the two compare and subtract alike. *)
Definition get_silent_segments (audio : AudioSegment)
    (silence_threshold min_silence_length : float) : result (list fsegment) :=
  min_silence_ms ← int_of_float (PrimFloat.mul min_silence_length 1000);
  let non_silent_ranges_ms :=
    detect_nonsilent audio min_silence_ms silence_threshold in
  let non_silent_ranges := map to_seconds non_silent_ranges_ms in
  let silent_segments : list fsegment := [] in
  (* silence at the beginning *)
  silent_segments ←
    (if py_bool non_silent_ranges then
       first ← py_index non_silent_ranges 0;
       if PrimFloat.ltb 0 first.1
       then Ok (silent_segments ++ [(0%float, first.1)])
       else Ok silent_segments
     else Ok silent_segments);
  (* silence between non-silent parts *)
  silent_segments ←
    py_for (fun silent_segments i =>
              a ← py_index non_silent_ranges i;
              b ← py_index non_silent_ranges (i + 1)%Z;
              Ok (silent_segments ++ [(a.2, b.1)]))
           silent_segments
           (py_range 0 (py_len non_silent_ranges - 1) 1);
  (* silence at the end *)
  let audio_length_sec := true_div (len_ms audio) 1000 in
  silent_segments ←
    (if py_bool non_silent_ranges then
       last ← py_index non_silent_ranges (-1);
       if PrimFloat.ltb last.2 audio_length_sec
       then Ok (silent_segments ++ [(last.2, audio_length_sec)])
       else Ok silent_segments
     else Ok silent_segments);
  (* drop the segments shorter than the minimum length *)
  Ok (List.filter
        (fun s : fsegment =>
           PrimFloat.leb min_silence_length (PrimFloat.sub s.2 s.1))
        silent_segments).

(** The complement of the runs as the specification words it, and the
    length test of the source. *)
Fixpoint between (l : list fsegment) : list fsegment :=
  match l with
  | a :: (b :: _) as tl => (a.2, b.1) :: between tl
  | _ => []
  end.

Definition complement_gaps (runs : list fsegment) (duration : float)
  : list fsegment :=
  match runs with
  | [] => [(0%float, duration)]
  | first :: _ =>
      let last := List.last runs first in
      (if PrimFloat.ltb 0 first.1 then [(0%float, first.1)] else [])
        ++ between runs
        ++ (if PrimFloat.ltb last.2 duration then [(last.2, duration)] else [])
  end.

Definition long_enough (min_duration : float) (s : fsegment) : bool :=
  PrimFloat.leb min_duration (PrimFloat.sub s.2 s.1).




(** ** [load_config] *)

(** What [json.load] can return. *)
#[warnings="-register-all"] Inductive pyval : Type :=
| PNone
| PBool (b : bool)
| PInt (n : Z)
| PFloat (x : float)
| PStr (s : string)
| PList (items : list pyval)
| PDict (items : list (string * pyval)).

(** The outcome of [open(config_path)] followed by [json.load], for a
    file that holds a JSON object. *)
Inductive config_file : Type :=
| Missing
| Malformed
| Parsed (config : gmap string pyval).

(** [v > 0]: [bool] is an [int], not a number compares as [False], and
    anything that is not a number cannot be compared with [0]. *)
Definition gt_zero (v : pyval) : result bool :=
  match v with
  | PBool b => Ok b
  | PInt n => Ok (0 <? n)%Z
  | PFloat x => Ok (PrimFloat.ltb 0 x)
  | _ => Raise TypeError
  end.

(** [-abs(v * 100)]: exact on [int] and [bool], rounded on [float]. *)
Definition neg_abs_times_100 (v : pyval) : result pyval :=
  match v with
  | PBool b => Ok (PInt (- Z.abs ((if b then 1 else 0) * 100)))
  | PInt n => Ok (PInt (- Z.abs (n * 100)))
  | PFloat x => Ok (PFloat (PrimFloat.opp (PrimFloat.abs (PrimFloat.mul x 100))))
  | _ => Raise TypeError
  end.

Section LoadConfig.

(** [os.path.dirname] on a [str] *)
Variable dirname : string -> string.

Definition set_silence_threshold (config : gmap string pyval)
  : result (gmap string pyval) :=
  match config !! "silence_threshold" with
  | None => Ok (<["silence_threshold" := PInt (-50)]> config)
  | Some t =>
      positive ← gt_zero t;
      if (positive : bool)
      then t' ← neg_abs_times_100 t;
           Ok (<["silence_threshold" := t']> config)
      else Ok config
  end.

Definition set_min_silence_length (config : gmap string pyval)
  : gmap string pyval :=
  match config !! "min_silence_length" with
  | None => <["min_silence_length" := PFloat 0.5]> config
  | Some _ => config
  end.

Definition set_output_path (config : gmap string pyval)
  : result (gmap string pyval) :=
  match config !! "output_path", config !! "input_path" with
  | None, Some (PStr p) => Ok (<["output_path" := PStr (dirname p)]> config)
  | None, Some _ => Raise TypeError
  | _, _ => Ok config
  end.

Definition load_config (config_path : string) (file : config_file)
  : result (gmap string pyval) :=
  match file with
  | Missing =>
      Raise (FileNotFoundError
               ("Configuration file not found at " +:+ config_path))
  | Malformed =>
      Raise (ValueError
               ("Invalid JSON format in configuration file at " +:+ config_path))
  | Parsed config =>
      config ← set_silence_threshold config;
      let config := set_min_silence_length config in
      set_output_path config
  end.

End LoadConfig.

(** The configurations on which no step meets a value it cannot use: the
    threshold, when present, is a number, and the input path, when the
    output path has to be derived from it, is a string. *)
Definition loads (config : gmap string pyval) : Prop :=
  match config !! "silence_threshold" with
  | None | Some (PBool _) | Some (PInt _) | Some (PFloat _) => True
  | Some _ => False
  end
  /\ match config !! "output_path", config !! "input_path" with
     | None, Some (PStr _) => True
     | None, Some _ => False
     | _, _ => True
     end.

End Binary64.

(** * Proofs *)

(** ** Booleans on rationals *)

Lemma Qlt_bool_iff (x y : Q) : Qlt_bool x y = true <-> x < y.
Proof.
  unfold Qlt_bool. rewrite negb_true_iff.
  destruct (Qle_bool y x) eqn:E.
  - apply Qle_bool_iff in E. split; [discriminate | intros H; lra].
  - split; [intros _ | reflexivity].
    apply Qnot_le_lt. intros H. apply Qle_bool_iff in H. congruence.
Qed.

Lemma Qlt_bool_false (x y : Q) : Qlt_bool x y = false <-> y <= x.
Proof.
  destruct (Qlt_bool x y) eqn:E.
  - apply Qlt_bool_iff in E. split; [discriminate | intros H; lra].
  - split; [intros _ | reflexivity].
    apply Qnot_lt_le. intros H. apply Qlt_bool_iff in H. congruence.
Qed.

Lemma Qle_bool_false (x y : Q) : Qle_bool x y = false <-> y < x.
Proof.
  rewrite <- Qlt_bool_iff. unfold Qlt_bool.
  destruct (Qle_bool x y); simpl; split; congruence.
Qed.

(** Turn every boolean comparison in sight into its proposition. *)
Ltac qprop :=
  repeat match goal with
  | H : Qle_bool _ _ = true |- _ => apply Qle_bool_iff in H
  | H : Qle_bool _ _ = false |- _ => apply Qle_bool_false in H
  | H : Qlt_bool _ _ = true |- _ => apply Qlt_bool_iff in H
  | H : Qlt_bool _ _ = false |- _ => apply Qlt_bool_false in H
  | H : Qeq_bool _ _ = true |- _ => apply Qeq_bool_iff in H
  | H : Qeq_bool _ _ = false |- _ => apply Qeq_bool_neq in H
  end.

Ltac qcase :=
  repeat match goal with
  | |- context [Qle_bool ?x ?y] => destruct (Qle_bool x y) eqn:?
  | |- context [Qlt_bool ?x ?y] => destruct (Qlt_bool x y) eqn:?
  | |- context [Qeq_bool ?x ?y] => destruct (Qeq_bool x y) eqn:?
  end; qprop.

Lemma py_max_spec (a b : Q) :
  (a < b /\ py_max a b = b) \/ (b <= a /\ py_max a b = a).
Proof. unfold py_max. qcase; auto. Qed.

Lemma py_min_spec (a b : Q) :
  (b < a /\ py_min a b = b) \/ (a <= b /\ py_min a b = a).
Proof. unfold py_min. qcase; auto. Qed.

(** ** Indexing *)

Lemma py_index_nat {A : Type} (l : list A) (i : nat) (x : A) :
  l !! i = Some x -> py_index l (Z.of_nat i) = Ok x.
Proof.
  intros H. pose proof (lookup_lt_Some _ _ _ H) as Hlt.
  unfold py_index, py_pos, py_len.
  rewrite (proj2 (Z.ltb_ge (Z.of_nat i) 0)) by lia. cbv beta iota zeta.
  rewrite (proj2 (Z.leb_le 0 (Z.of_nat i))) by lia.
  rewrite (proj2 (Z.ltb_lt (Z.of_nat i) (Z.of_nat (length l)))) by lia.
  simpl. rewrite Nat2Z.id, H. reflexivity.
Qed.

Lemma py_pos_last (n : nat) : py_pos (Z.of_nat (S n)) (-1) = Ok n.
Proof.
  unfold py_pos. change (-1 <? 0)%Z with true. cbv beta iota zeta.
  rewrite (proj2 (Z.leb_le 0 (Z.of_nat (S n) + -1))) by lia.
  rewrite (proj2 (Z.ltb_lt (Z.of_nat (S n) + -1) (Z.of_nat (S n)))) by lia.
  simpl andb. cbv iota. f_equal. lia.
Qed.

Lemma py_index_last {A : Type} (l : list A) (x : A) :
  py_index (l ++ [x]) (-1) = Ok x.
Proof.
  unfold py_index, py_len. rewrite length_app, Nat.add_1_r, py_pos_last.
  simpl. rewrite lookup_app_r by lia. rewrite Nat.sub_diag. reflexivity.
Qed.

Lemma py_setitem_last {A : Type} (l : list A) (x y : A) :
  py_setitem (l ++ [x]) (-1) y = Ok (l ++ [y]).
Proof.
  unfold py_setitem, py_len. rewrite length_app, Nat.add_1_r, py_pos_last.
  simpl. f_equal. rewrite insert_app_r_alt by lia.
  rewrite Nat.sub_diag. reflexivity.
Qed.

Lemma py_index_last_default {A : Type} (l : list A) (d x : A) :
  py_index (x :: l) (-1) = Ok (List.last (x :: l) d).
Proof.
  destruct (exists_last (l := x :: l)) as [l' [y E]]; [discriminate |].
  rewrite E, py_index_last, last_last. reflexivity.
Qed.

Lemma py_range_from_0 (n : Z) :
  py_range 0 n 1 = map Z.of_nat (seq 0 (Z.to_nat n)).
Proof.
  unfold py_range. destruct (Z.ltb_spec 0 n) as [H | H].
  - rewrite Z.sub_0_r, Z.div_1_r.
    replace (n - 1 + 1)%Z with n by lia.
    apply map_ext. intros k. lia.
  - replace (Z.to_nat n) with 0%nat by lia. reflexivity.
Qed.

(** The index loop [for i in range(len(l) - 1)] collects [between l]. *)
Lemma between_loop (pre l acc : list segment) :
  py_for (fun acc i =>
            a ← py_index (pre ++ l) i;
            b ← py_index (pre ++ l) (i + 1)%Z;
            Ok (acc ++ [(a.2, b.1)]))
         acc (map Z.of_nat (seq (length pre) (length l - 1)))
  = Ok (acc ++ between l).
Proof.
  revert pre acc. induction l as [| a l IH]; intros pre acc.
  - simpl. rewrite app_nil_r. reflexivity.
  - destruct l as [| b tl].
    + simpl. rewrite app_nil_r. reflexivity.
    + replace (length (a :: b :: tl) - 1)%nat with (S (length tl)) by (simpl; lia).
      cbn [seq map py_for].
      rewrite (py_index_nat (pre ++ a :: b :: tl) (length pre) a)
        by (rewrite lookup_app_r by lia; rewrite Nat.sub_diag; reflexivity).
      replace (Z.of_nat (length pre) + 1)%Z with (Z.of_nat (S (length pre))) by lia.
      rewrite (py_index_nat (pre ++ a :: b :: tl) (S (length pre)) b)
        by (rewrite lookup_app_r by lia;
            replace (S (length pre) - length pre)%nat with 1%nat by lia;
            reflexivity).
      cbn [mbind result_bind].
      specialize (IH (pre ++ [a]) (acc ++ [(a.2, b.1)])).
      rewrite <- app_assoc in IH. cbn [app] in IH.
      rewrite length_app in IH. cbn [length] in IH.
      rewrite Nat.add_1_r in IH.
      replace (S (length tl) - 1)%nat with (length tl) in IH by lia.
      etransitivity; [exact IH |]. rewrite <- app_assoc. reflexivity.
Qed.

Lemma between_range (l acc : list segment) :
  py_for (fun acc i =>
            a ← py_index l i;
            b ← py_index l (i + 1)%Z;
            Ok (acc ++ [(a.2, b.1)]))
         acc (py_range 0 (py_len l - 1) 1)
  = Ok (acc ++ between l).
Proof.
  rewrite py_range_from_0. unfold py_len.
  replace (Z.to_nat (Z.of_nat (length l) - 1)) with (length l - 1)%nat by lia.
  exact (between_loop [] l acc).
Qed.

Lemma py_index_head {A : Type} (x : A) (l : list A) : py_index (x :: l) 0 = Ok x.
Proof. exact (py_index_nat (x :: l) 0 x eq_refl). Qed.

(** ** The functions in closed form *)

Lemma get_silent_segments_eq (a : AudioSegment) (thr min_len : Q) :
  get_silent_segments a thr min_len
  = Ok (List.filter (long_enough min_len)
          (gaps (map to_seconds
                     (detect_nonsilent a (py_int (min_len * 1000)) thr))
                (inject_Z (len_ms a) / 1000))).
Proof.
  unfold get_silent_segments.
  generalize (map to_seconds (detect_nonsilent a (py_int (min_len * 1000)) thr)).
  intros runs. destruct runs as [| first tl].
  - reflexivity.
  - cbn [py_bool]. rewrite py_index_head. cbn [mbind result_bind].
    rewrite (py_index_last_default tl first first).
    unfold gaps. cbv zeta.
    destruct (Qlt_bool 0 first.1);
      cbn [mbind result_bind]; rewrite between_range;
      cbn [mbind result_bind];
      destruct (Qlt_bool (List.last (first :: tl) first).2
                         (inject_Z (len_ms a) / 1000));
      cbn [mbind result_bind]; rewrite ?app_nil_r, <- ?app_assoc; reflexivity.
Qed.

Lemma keep_segments_eq (first : segment) (tl : list segment) (total : Q) :
  keep_segments (first :: tl) total = Ok (gaps (first :: tl) total).
Proof.
  unfold keep_segments. rewrite py_index_head. cbn [mbind result_bind].
  rewrite (py_index_last_default tl first first).
  unfold gaps. cbv zeta.
  destruct (Qlt_bool 0 first.1);
    rewrite between_range; cbn [mbind result_bind];
    destruct (Qlt_bool (List.last (first :: tl) first).2 total);
    rewrite ?app_nil_r, <- ?app_assoc; reflexivity.
Qed.

Lemma keep_segments_nil (total : Q) : keep_segments [] total = Raise IndexError.
Proof. reflexivity. Qed.

Lemma sweep_loop (pre : list segment) (cur : segment) (rest : list segment) :
  py_for (fun merged (s : segment) =>
            last ← py_index merged (-1);
            if Qle_bool s.1 last.2
            then py_setitem merged (-1) (last.1, py_max last.2 s.2)
            else Ok (merged ++ [s]))
         (pre ++ [cur]) rest
  = Ok (pre ++ sweep cur rest).
Proof.
  revert pre cur. induction rest as [| s rest IH]; intros pre cur.
  - reflexivity.
  - cbn [py_for sweep]. rewrite py_index_last. cbn [mbind result_bind].
    destruct (Qle_bool s.1 cur.2).
    + rewrite py_setitem_last. cbn [mbind result_bind]. apply IH.
    + cbn [mbind result_bind].
      specialize (IH (pre ++ [cur]) s). etransitivity; [exact IH |].
      rewrite <- app_assoc. reflexivity.
Qed.

Lemma sort_insert_cons (x : segment) (l : list segment) :
  exists y l', sort_insert x l = y :: l'.
Proof. destruct l as [| y l]; simpl; [| destruct (tuple_lt y x)]; eauto. Qed.

Lemma merged_segments_eq (l : list segment) :
  merged_segments l = Ok (merge_sorted (py_sort l)).
Proof.
  unfold merged_segments. destruct l as [| x l]; [reflexivity |].
  cbn [py_bool py_sort].
  destruct (sort_insert_cons x (py_sort l)) as [y [l' E]]. rewrite E.
  rewrite py_index_head. cbn [mbind result_bind merge_sorted].
  exact (sweep_loop [] y l').
Qed.

(** ** The tuple order and [list.sort] *)

Lemma tuple_lt_true (a b : segment) :
  tuple_lt a b = true <-> a.1 < b.1 \/ (a.1 == b.1 /\ a.2 < b.2).
Proof.
  unfold tuple_lt. destruct a as [a1 a2], b as [b1 b2]. simpl.
  qcase; split; intros H; try discriminate; try reflexivity; qprop;
    try (destruct H as [H | [H H']]); try lra; auto.
Qed.

Lemma tuple_le_iff (a b : segment) :
  tuple_le a b <-> a.1 < b.1 \/ (a.1 == b.1 /\ a.2 <= b.2).
Proof.
  unfold tuple_le. destruct (tuple_lt b a) eqn:E.
  - apply tuple_lt_true in E. split; [discriminate |].
    intros H. exfalso. destruct E as [E | [E E']], H as [H | [H H']]; lra.
  - split; [intros _ | reflexivity].
    destruct (Qlt_le_dec a.1 b.1) as [H | H]; [auto |].
    destruct (Qlt_le_dec b.1 a.1) as [H1 | H1].
    + assert (tuple_lt b a = true) by (apply tuple_lt_true; auto). congruence.
    + right. split; [lra |].
      destruct (Qlt_le_dec b.2 a.2) as [H2 | H2]; [| assumption].
      assert (tuple_lt b a = true) by (apply tuple_lt_true; right; split; lra).
      congruence.
Qed.

Lemma tuple_le_start (a b : segment) : tuple_le a b -> a.1 <= b.1.
Proof. rewrite tuple_le_iff. intros [H | [H _]]; lra. Qed.

Lemma tuple_le_trans (a b c : segment) :
  tuple_le a b -> tuple_le b c -> tuple_le a c.
Proof.
  rewrite !tuple_le_iff. intros [H | [H H']] [K | [K K']];
    solve [left; lra | right; split; lra].
Qed.

Lemma tuple_lt_le (a b : segment) : tuple_lt a b = true -> tuple_le a b.
Proof.
  rewrite tuple_lt_true, tuple_le_iff. intros [H | [H H']];
    [left; lra | right; split; lra].
Qed.

Lemma tuple_le_antisym (a b : segment) :
  tuple_le a b -> tuple_le b a -> seg_eq a b.
Proof.
  rewrite !tuple_le_iff. unfold seg_eq.
  intros [H | [H H']] [K | [K K']]; split; lra.
Qed.

Lemma seg_eq_refl (a : segment) : seg_eq a a.
Proof. split; reflexivity. Qed.

Lemma seg_eq_sym (a b : segment) : seg_eq a b -> seg_eq b a.
Proof. intros [H K]. split; symmetry; assumption. Qed.

Lemma seg_eq_trans (a b c : segment) : seg_eq a b -> seg_eq b c -> seg_eq a c.
Proof. intros [H K] [H' K']. split; lra. Qed.

Lemma tuple_lt_seg_eq (a a' b b' : segment) :
  seg_eq a a' -> seg_eq b b' -> tuple_lt a b = tuple_lt a' b'.
Proof.
  intros [Ha1 Ha2] [Hb1 Hb2].
  destruct (tuple_lt a b) eqn:E, (tuple_lt a' b') eqn:E'; try reflexivity;
    exfalso.
  - apply tuple_lt_true in E. apply (proj1 (tuple_le_iff b' a')) in E'.
    destruct E as [E | [E E1]], E' as [E' | [E' E1']]; lra.
  - apply tuple_lt_true in E'. apply (proj1 (tuple_le_iff b a)) in E.
    destruct E as [E | [E E1]], E' as [E' | [E' E1']]; lra.
Qed.

Lemma segs_eq_refl (l : list segment) : segs_eq l l.
Proof. induction l; constructor; auto using seg_eq_refl. Qed.

Lemma segs_eq_trans (l1 l2 l3 : list segment) :
  segs_eq l1 l2 -> segs_eq l2 l3 -> segs_eq l1 l3.
Proof.
  intros H. revert l3. induction H as [| a b l1 l2 Hab _ IH]; intros l3 K.
  - inversion K. constructor.
  - inversion K as [| b' c l2' l3' Hbc K']; subst. constructor.
    + eapply seg_eq_trans; eassumption.
    + apply IH. assumption.
Qed.

Lemma sort_insert_seg_eq (x x' : segment) (l l' : list segment) :
  seg_eq x x' -> segs_eq l l' -> segs_eq (sort_insert x l) (sort_insert x' l').
Proof.
  intros Hx H. induction H as [| y y' l l' Hy Hl IH]; simpl.
  - constructor; [assumption | constructor].
  - rewrite (tuple_lt_seg_eq y y' x x' Hy Hx).
    destruct (tuple_lt y' x').
    + constructor; assumption.
    + constructor; [assumption |]. constructor; assumption.
Qed.

(** Two insertions commute, up to the order of two equal tuples. *)
Lemma sort_insert_comm (x y : segment) (l : list segment) :
  segs_eq (sort_insert x (sort_insert y l)) (sort_insert y (sort_insert x l)).
Proof.
  induction l as [| z l IH]; simpl.
  - destruct (tuple_lt y x) eqn:Eyx, (tuple_lt x y) eqn:Exy;
      try apply segs_eq_refl.
    + apply tuple_lt_le in Eyx. unfold tuple_le in Eyx. congruence.
    + constructor; [apply tuple_le_antisym; assumption |].
      constructor; [apply tuple_le_antisym; assumption | constructor].
  - destruct (tuple_lt z y) eqn:Ezy, (tuple_lt z x) eqn:Ezx; simpl;
      rewrite ?Ezy, ?Ezx.
    + constructor; [apply seg_eq_refl | apply IH].
    + (* x <= z < y *)
      destruct (tuple_lt x y) eqn:Exy.
      * simpl. rewrite ?Ezy. apply segs_eq_refl.
      * exfalso.
        assert (tuple_le y z) by (eapply tuple_le_trans; [exact Exy | exact Ezx]).
        unfold tuple_le in *. congruence.
    + (* y <= z < x *)
      destruct (tuple_lt y x) eqn:Eyx.
      * simpl. rewrite ?Ezx. apply segs_eq_refl.
      * exfalso.
        assert (tuple_le x z) by (eapply tuple_le_trans; [exact Eyx | exact Ezy]).
        unfold tuple_le in *. congruence.
    + destruct (tuple_lt y x) eqn:Eyx, (tuple_lt x y) eqn:Exy;
        simpl; rewrite ?Ezy, ?Ezx; try apply segs_eq_refl.
      * apply tuple_lt_le in Eyx. unfold tuple_le in Eyx. congruence.
      * constructor; [apply tuple_le_antisym; assumption |].
        constructor; [apply tuple_le_antisym; assumption | apply segs_eq_refl].
Qed.

Lemma py_sort_Permutation (l l' : list segment) :
  Permutation l l' -> segs_eq (py_sort l) (py_sort l').
Proof.
  induction 1 as [| x l l' _ IH | x y l | l1 l2 l3 _ IH1 _ IH2]; simpl.
  - constructor.
  - apply sort_insert_seg_eq; [apply seg_eq_refl | assumption].
  - apply sort_insert_comm.
  - eapply segs_eq_trans; eassumption.
Qed.

Lemma sort_insert_Forall (P : segment -> Prop) (x : segment) (l : list segment) :
  P x -> Forall P l -> Forall P (sort_insert x l).
Proof.
  intros Hx H. induction H as [| y l Hy Hl IH]; simpl.
  - repeat constructor. assumption.
  - destruct (tuple_lt y x); repeat constructor; assumption.
Qed.

Lemma sort_insert_sorted (x : segment) (l : list segment) :
  StronglySorted tuple_le l -> StronglySorted tuple_le (sort_insert x l).
Proof.
  induction 1 as [| y l Hs IH Hy]; simpl.
  - repeat constructor.
  - destruct (tuple_lt y x) eqn:E.
    + constructor; [assumption |].
      apply sort_insert_Forall; [apply tuple_lt_le; assumption | assumption].
    + constructor; [constructor; assumption |].
      constructor; [exact E |].
      eapply Forall_impl; [exact Hy |].
      intros z Hz. eapply tuple_le_trans; [exact E | exact Hz].
Qed.

Lemma py_sort_sorted (l : list segment) : StronglySorted tuple_le (py_sort l).
Proof.
  induction l; simpl; [constructor | apply sort_insert_sorted; assumption].
Qed.

Lemma sort_insert_perm (x : segment) (l : list segment) :
  Permutation (sort_insert x l) (x :: l).
Proof.
  induction l as [| y l IH]; simpl; [reflexivity |].
  destruct (tuple_lt y x); [| reflexivity].
  rewrite IH. apply perm_swap.
Qed.

Lemma py_sort_perm (l : list segment) : Permutation (py_sort l) l.
Proof.
  induction l as [| x l IH]; simpl; [reflexivity |].
  rewrite sort_insert_perm. constructor. assumption.
Qed.

(** ** The sweep *)

Lemma sweep_head (rest : list segment) (cur : segment) :
  exists o tl, sweep cur rest = o :: tl /\ o.1 = cur.1 /\ cur.2 <= o.2.
Proof.
  revert cur. induction rest as [| s rest IH]; intros cur; simpl.
  - exists cur, []. repeat split; lra.
  - destruct (Qle_bool s.1 cur.2).
    + destruct (IH (cur.1, py_max cur.2 s.2)) as [o [tl [E [H1 H2]]]].
      exists o, tl. simpl in *. repeat split; try assumption.
      destruct (py_max_spec cur.2 s.2) as [[? K] | [? K]]; rewrite K in H2; lra.
    + exists cur, (sweep s rest). repeat split; lra.
Qed.

Lemma sweep_apart (rest : list segment) (cur : segment) :
  Sorted apart (sweep cur rest).
Proof.
  revert cur. induction rest as [| s rest IH]; intros cur; simpl.
  - repeat constructor.
  - destruct (Qle_bool s.1 cur.2) eqn:E; [apply IH |].
    constructor; [apply IH |].
    destruct (sweep_head rest s) as [o [tl [-> [H1 _]]]].
    constructor. unfold apart. rewrite H1. qprop. lra.
Qed.

Lemma start_sorted_merge (cur s : segment) (rest : list segment) (e : Q) :
  StronglySorted start_le (cur :: s :: rest) ->
  StronglySorted start_le ((cur.1, e) :: rest).
Proof.
  intros H. inversion H as [| ? ? Hs Hall]; subst.
  inversion Hs; subst. inversion Hall; subst.
  constructor; assumption.
Qed.

Lemma sweep_start_sorted (rest : list segment) (cur : segment) :
  StronglySorted start_le (cur :: rest) ->
  Sorted start_le (sweep cur rest).
Proof.
  revert cur. induction rest as [| s rest IH]; intros cur H; simpl.
  - repeat constructor.
  - destruct (Qle_bool s.1 cur.2) eqn:E.
    + apply IH. eapply start_sorted_merge. exact H.
    + inversion H as [| ? ? Hs Hall]; subst. inversion Hall; subst.
      constructor; [apply IH; assumption |].
      destruct (sweep_head rest s) as [o [tl [-> [H1 _]]]].
      constructor. unfold start_le in *. rewrite H1. lra.
Qed.

Lemma covered_cons (a : segment) (l : list segment) (t : Q) :
  covered (a :: l) t <-> covers a t = true \/ covered l t.
Proof.
  unfold covered. split.
  - intros [s [[-> | Hin] Hc]]; [left | right; exists s]; auto.
  - intros [Hc | [s [Hin Hc]]]; [exists a | exists s]; simpl; auto.
Qed.

Lemma covered_nil (t : Q) : ~ covered [] t.
Proof. intros [s [[] _]]. Qed.

Lemma covers_iff (s : segment) (t : Q) :
  covers s t = true <-> s.1 <= t /\ t < s.2.
Proof.
  unfold covers. rewrite andb_true_iff, Qle_bool_iff, Qlt_bool_iff. tauto.
Qed.

(** Extending [cur] by an interval that starts inside it or at its end
    covers the union of the two. *)
Lemma covers_merge (cur s : segment) (t : Q) :
  cur.1 <= s.1 -> s.1 <= cur.2 ->
  covers (cur.1, py_max cur.2 s.2) t = true
  <-> covers cur t = true \/ covers s t = true.
Proof.
  intros H1 H2. rewrite !covers_iff. simpl.
  destruct (py_max_spec cur.2 s.2) as [[? K] | [? K]]; rewrite K;
    split; intros Hc; lra.
Qed.

Lemma sweep_covered (rest : list segment) (cur : segment) (t : Q) :
  StronglySorted start_le (cur :: rest) ->
  covered (sweep cur rest) t <-> covered (cur :: rest) t.
Proof.
  revert cur. induction rest as [| s rest IH]; intros cur H; simpl.
  - reflexivity.
  - destruct (Qle_bool s.1 cur.2) eqn:E.
    + rewrite IH by (eapply start_sorted_merge; exact H).
      rewrite !covered_cons.
      inversion H as [| ? ? _ Hall]; subst. inversion Hall; subst.
      qprop. rewrite covers_merge by assumption. tauto.
    + inversion H as [| ? ? Hs _]; subst.
      rewrite covered_cons, IH by assumption. rewrite !covered_cons. tauto.
Qed.

(** An interval further right that starts no later than [cur] ends is
    swallowed by the first output interval. *)
Lemma sweep_absorb (rest : list segment) (cur b : segment) :
  StronglySorted start_le (cur :: rest) -> In b rest -> b.1 <= cur.2 ->
  exists o tl, sweep cur rest = o :: tl
               /\ o.1 = cur.1 /\ cur.2 <= o.2 /\ b.2 <= o.2.
Proof.
  revert cur. induction rest as [| s rest IH]; intros cur H Hin Hb.
  - destruct Hin.
  - pose proof H as H'.
    inversion H as [| ? ? Hs Hall]; subst. inversion Hall as [| ? ? Hcs _]; subst.
    inversion Hs as [| ? ? _ Hsall]; subst.
    assert (Hm : s.1 <= cur.2).
    { destruct Hin as [-> | Hin]; [assumption |].
      rewrite Forall_forall in Hsall. specialize (Hsall b).
      unfold start_le in Hsall.
      assert (s.1 <= b.1) by (apply Hsall; apply list_elem_of_In; assumption).
      lra. }
    simpl. rewrite (proj2 (Qle_bool_iff _ _) Hm).
    pose proof (start_sorted_merge _ _ _ (py_max cur.2 s.2) H') as Hsorted.
    assert (Hmax : cur.2 <= py_max cur.2 s.2 /\ s.2 <= py_max cur.2 s.2).
    { destruct (py_max_spec cur.2 s.2) as [[? K] | [? K]]; rewrite K; lra. }
    destruct Hin as [-> | Hin].
    + destruct (sweep_head rest (cur.1, py_max cur.2 b.2)) as [o [tl [E [H1 H2]]]].
      exists o, tl. simpl in *. repeat split; try assumption; lra.
    + destruct (IH (cur.1, py_max cur.2 s.2) Hsorted Hin) as [o [tl [E [H1 [H2 H3]]]]].
      { simpl. lra. }
      exists o, tl. simpl in *. repeat split; try assumption; lra.
Qed.

(** Two sorted inputs [a] before [b] with [b] starting no later than [a]
    ends lie in one output interval. *)
Lemma sweep_collapse (rest : list segment) (cur : segment)
    (l1 : list segment) (a : segment) (l2 : list segment) (b : segment)
    (l3 : list segment) :
  StronglySorted start_le (cur :: rest) ->
  cur :: rest = l1 ++ a :: l2 ++ b :: l3 ->
  b.1 <= a.2 ->
  exists o, In o (sweep cur rest) /\ o.1 <= a.1 /\ a.2 <= o.2 /\ b.2 <= o.2.
Proof.
  revert cur l1. induction rest as [| s rest IH]; intros cur l1 H E Hb.
  - destruct l1 as [| c l1]; simplify_eq.
    + destruct l2; discriminate.
    + destruct l1; discriminate.
  - destruct l1 as [| c l1].
    + (* [a] is the current interval *)
      simpl in E. injection E as -> E.
      destruct (sweep_absorb (s :: rest) a b H) as [o [tl [Eo [H1 [H2 H3]]]]].
      { rewrite E. apply in_or_app. right. left. reflexivity. }
      { assumption. }
      exists o. rewrite Eo. split; [left; reflexivity |]. rewrite H1. lra.
    + simpl in E. injection E as -> E.
      pose proof H as H'.
      inversion H as [| ? ? Hs Hall]; subst.
      simpl. destruct (Qle_bool s.1 c.2) eqn:Em.
      * pose proof (start_sorted_merge _ _ _ (py_max c.2 s.2) H') as Hsorted.
        destruct l1 as [| s' l1].
        -- (* [a] is merged into the current interval *)
           simpl in E. injection E as -> E.
           destruct (sweep_absorb rest (c.1, py_max c.2 a.2) b Hsorted)
             as [o [tl [Eo [H1 [H2 H3]]]]].
           { rewrite E. apply in_or_app. right. left. reflexivity. }
           { simpl. destruct (py_max_spec c.2 a.2) as [[? K] | [? K]];
               rewrite K; lra. }
           exists o. rewrite Eo. split; [left; reflexivity |].
           inversion Hall; subst. unfold start_le in *. simpl in *.
           rewrite H1.
           destruct (py_max_spec c.2 a.2) as [[? K] | [? K]];
             rewrite K in H2; lra.
        -- simpl in E. injection E as -> E.
           apply (IH (c.1, py_max c.2 s'.2) ((c.1, py_max c.2 s'.2) :: l1));
             [assumption | simpl; rewrite E; reflexivity | assumption].
      * destruct (IH s l1 Hs E Hb) as [o [Hin Ho]].
        exists o. split; [right; assumption | assumption].
Qed.

Lemma sweep_seg_eq (r r' : list segment) :
  segs_eq r r' ->
  forall c c', seg_eq c c' -> segs_eq (sweep c r) (sweep c' r').
Proof.
  induction 1 as [| s s' r r' Hs Hr IH]; intros c c' Hc; simpl.
  - constructor; [assumption | constructor].
  - destruct Hs as [Hs1 Hs2]. pose proof Hc as [Hc1 Hc2].
    destruct (Qle_bool s.1 c.2) eqn:E, (Qle_bool s'.1 c'.2) eqn:E'; qprop;
      try (exfalso; lra).
    + apply IH. split; simpl; [assumption |].
      destruct (py_max_spec c.2 s.2) as [[? K] | [? K]],
               (py_max_spec c'.2 s'.2) as [[? K'] | [? K']];
        rewrite K, K'; lra.
    + constructor; [assumption |]. apply IH. split; assumption.
Qed.

Lemma start_sorted_of_tuple_sorted (l : list segment) :
  StronglySorted tuple_le l -> StronglySorted start_le l.
Proof.
  induction 1 as [| a l _ IH Ha]; constructor; [assumption |].
  eapply Forall_impl; [exact Ha |]. intros b. apply tuple_le_start.
Qed.

(** ** Counting covers *)

Lemma count_cover_app (l l' : list segment) (t : Q) :
  count_cover (l ++ l') t = (count_cover l t + count_cover l' t)%nat.
Proof. unfold count_cover. rewrite List.filter_app, length_app. reflexivity. Qed.

Lemma count_cover_cons (s : segment) (l : list segment) (t : Q) :
  count_cover (s :: l) t = (ind s.1 s.2 t + count_cover l t)%nat.
Proof.
  unfold count_cover, ind. destruct s as [a b]. simpl.
  destruct (covers (a, b) t); reflexivity.
Qed.

Lemma ind_join (a b c t : Q) :
  a <= b -> b <= c -> (ind a b t + ind b c t)%nat = ind a c t.
Proof.
  intros H1 H2. unfold ind, covers. simpl.
  qcase; simpl; try reflexivity; exfalso; lra.
Qed.

Lemma ind_empty (a b t : Q) : b <= a -> ind a b t = 0%nat.
Proof.
  intros H. unfold ind, covers. simpl.
  qcase; simpl; try reflexivity; exfalso; lra.
Qed.

Lemma last_In (s : segment) (l : list segment) : In (List.last (s :: l) s) (s :: l).
Proof.
  destruct (exists_last (l := s :: l)) as [l' [y E]]; [discriminate |].
  rewrite E, last_last. apply in_or_app. right. left. reflexivity.
Qed.

(** Silences and the gaps between them tile the stretch from the first
    start to the last end. *)
Lemma chain_count (tl : list segment) (s : segment) (t : Q) :
  Forall (fun s : segment => s.1 <= s.2) (s :: tl) ->
  Sorted (fun a b : segment => a.2 <= b.1) (s :: tl) ->
  s.1 <= (List.last (s :: tl) s).2
  /\ (count_cover (s :: tl) t + count_cover (between (s :: tl)) t)%nat
     = ind s.1 (List.last (s :: tl) s).2 t.
Proof.
  revert s. induction tl as [| s' tl IH]; intros s Hord Hdis.
  - inversion Hord; subst. cbv beta in *. split; [assumption |].
    unfold count_cover at 2. simpl. rewrite count_cover_cons.
    unfold count_cover. simpl. lia.
  - inversion Hord as [| ? ? Hs Hord']; subst.
    inversion Hdis as [| ? ? Hdis' Hhd]; subst. inversion Hhd; subst.
    destruct (IH s' Hord' Hdis') as [Hle Hcount]. cbv beta in *.
    change (List.last (s :: s' :: tl) s) with (List.last (s' :: tl) s).
    assert (El : List.last (s' :: tl) s = List.last (s' :: tl) s').
    { destruct (exists_last (l := s' :: tl)) as [l' [y E]]; [discriminate |].
      rewrite E, !last_last. reflexivity. }
    rewrite El. split; [lra |].
    change (between (s :: s' :: tl)) with ((s.2, s'.1) :: between (s' :: tl)).
    rewrite (count_cover_cons s), (count_cover_cons (s.2, s'.1)).
    cbn [fst snd].
    rewrite <- (ind_join s.1 s.2 (List.last (s' :: tl) s').2 t) by lra.
    rewrite <- (ind_join s.2 s'.1 (List.last (s' :: tl) s').2 t) by lra.
    lia.
Qed.

(** ** What is kept *)

Lemma concat_subclips (l : list segment) :
  concatenate_videoclips (map (fun s : segment => subclip s.1 s.2) l) = l.
Proof.
  unfold concatenate_videoclips, subclip.
  induction l as [| [a b] l IH]; simpl; [reflexivity |]. f_equal. exact IH.
Qed.

Lemma remove_silence_from_video_cons (video : VideoFileClip) (s : segment)
    (tl : list segment) :
  remove_silence_from_video video (s :: tl)
  = Ok (match gaps (s :: tl) (duration video) with
        | [] => [Printed "Warning: No segments to keep after removing silence.";
                 Closed]
        | keep => [Written keep; Closed]
        end).
Proof.
  unfold remove_silence_from_video. cbn [py_bool negb].
  rewrite keep_segments_eq. cbn [mbind result_bind].
  destruct (gaps (s :: tl) (duration video)) as [| k keep] eqn:E;
    [reflexivity |].
  change (Ok [Written
                (concatenate_videoclips
                   (map (fun s : segment => subclip s.1 s.2) (k :: keep)));
              Closed]
          = Ok [Written (k :: keep); Closed]).
  rewrite concat_subclips. reflexivity.
Qed.

Lemma kept_nil (video : VideoFileClip) : kept video [] = [(0, duration video)].
Proof. reflexivity. Qed.

Lemma kept_cons (video : VideoFileClip) (s : segment) (tl : list segment) :
  kept video (s :: tl) = gaps (s :: tl) (duration video).
Proof.
  unfold kept. rewrite remove_silence_from_video_cons.
  destruct (gaps (s :: tl) (duration video)); reflexivity.
Qed.

Lemma gaps_count (s : segment) (tl : list segment) (total t : Q) :
  silences_ok (s :: tl) total ->
  count_cover ((s :: tl) ++ gaps (s :: tl) total) t = ind 0 total t.
Proof.
  intros [Hnn Hord Hdis Hbd].
  destruct (chain_count tl s t Hord Hdis) as [Hle Hcount].
  assert (Hlast : (List.last (s :: tl) s).2 <= total).
  { rewrite Forall_forall in Hbd.
    apply (Hbd (List.last (s :: tl) s)), list_elem_of_In, last_In. }
  assert (Hfirst : 0 <= s.1) by (inversion Hnn; assumption).
  unfold gaps. cbv zeta. rewrite !count_cover_app.
  assert (Elead : count_cover (if Qlt_bool 0 s.1 then [(0, s.1)] else []) t
                  = ind 0 s.1 t).
  { destruct (Qlt_bool 0 s.1) eqn:E; qprop.
    - rewrite count_cover_cons. unfold count_cover. simpl. lia.
    - rewrite ind_empty by assumption. reflexivity. }
  assert (Etrail : count_cover
                     (if Qlt_bool (List.last (s :: tl) s).2 total
                      then [((List.last (s :: tl) s).2, total)] else []) t
                   = ind (List.last (s :: tl) s).2 total t).
  { destruct (Qlt_bool (List.last (s :: tl) s).2 total) eqn:E; qprop.
    - rewrite count_cover_cons. unfold count_cover. simpl. lia.
    - rewrite ind_empty by assumption. reflexivity. }
  rewrite Elead, Etrail.
  rewrite <- (ind_join 0 s.1 total t) by lra.
  rewrite <- (ind_join s.1 (List.last (s :: tl) s).2 total t) by lra.
  lia.
Qed.

(** * The claims *)

(** C3: for a sorted, disjoint silence sequence [S] within the total
    duration [D], the keep-sequence computed from [S] (the single interval
    [(0, D)] when [S] is empty, otherwise the list built by
    [keep_segments]: the stretch before the first silence when it starts
    after 0, the gap between each pair of neighbours, the stretch after
    the last silence when it ends before [D]) together with [S] partitions
    [[0, D)]: every instant of [[0, D)] lies in exactly one interval of
    the two sequences and no instant outside lies in any. *)
Theorem keep_and_silence_partition (video : VideoFileClip) (S : list segment) :
  silences_ok S (duration video) ->
  (S = [] -> kept video S = [(0, duration video)])
  /\ (S <> [] -> keep_segments S (duration video) = Ok (kept video S)
                 /\ kept video S = gaps S (duration video))
  /\ (forall t, count_cover (S ++ kept video S) t = ind 0 (duration video) t).
Proof.
  intros Hok. destruct S as [| s tl].
  - split; [reflexivity |]. split; [congruence |].
    intros t. rewrite kept_nil. simpl. rewrite count_cover_cons.
    unfold count_cover. simpl. lia.
  - split; [discriminate |]. rewrite kept_cons. split.
    + intros _. split; [apply keep_segments_eq | reflexivity].
    + intros t. apply gaps_count. assumption.
Qed.

Lemma keep_and_silence_partition_witness :
  silences_ok [(0, 1); (3, 21 # 5)] (duration (recording 5000 []))
  /\ kept (recording 5000 []) [(0, 1); (3, 21 # 5)]
     = [(1, 3); (21 # 5, duration (recording 5000 []))]
  /\ count_cover ([(0, 1); (3, 21 # 5)]
                    ++ kept (recording 5000 []) [(0, 1); (3, 21 # 5)]) 2
     = 1%nat.
Proof.
  assert (Hok : silences_ok [(0, 1); (3, 21 # 5)] (duration (recording 5000 []))).
  { split; repeat constructor; vm_compute; discriminate. }
  split; [exact Hok |]. split; [reflexivity |].
  rewrite (proj2 (proj2 (keep_and_silence_partition _ _ Hok)) 2).
  reflexivity.
Defined.

(** C5: the merge returns a sequence sorted ascending by start in which
    each interval begins strictly after the previous one has ended; two
    inputs [a], [b] that follow one another in sorted order with
    [b.start <= a.end] end up inside one output interval reaching from at
    most the smaller start to at least the larger end (and merging just
    these two yields exactly [(min starts, max ends)]); the instants
    covered by the output are those covered by the input. *)
Theorem merged_segments_union (l : list segment) :
  exists out,
    merged_segments l = Ok out
    /\ StronglySorted start_le out
    /\ Sorted apart out
    /\ (forall l1 a l2 b l3,
           py_sort l = l1 ++ a :: l2 ++ b :: l3 -> b.1 <= a.2 ->
           exists o, In o out /\ o.1 <= a.1 /\ a.2 <= o.2 /\ b.2 <= o.2)
    /\ (forall a b,
           l = [a; b] -> tuple_le a b -> b.1 <= a.2 ->
           out = [(py_min a.1 b.1, py_max a.2 b.2)])
    /\ (forall t, covered out t <-> covered l t).
Proof.
  rewrite merged_segments_eq. eexists. split; [reflexivity |].
  pose proof (start_sorted_of_tuple_sorted _ (py_sort_sorted l)) as Hs.
  assert (Hcov : forall t, covered (py_sort l) t <-> covered l t).
  { intros t. unfold covered. split; intros [s [Hin Hc]]; exists s;
      (split; [| assumption]).
    - eapply Permutation_in; [apply py_sort_perm | assumption].
    - eapply Permutation_in; [symmetry; apply py_sort_perm | assumption]. }
  split; [| split; [| split; [| split]]].
  - destruct (py_sort l) as [| c r]; [constructor |]. simpl.
    apply Sorted_StronglySorted.
    + intros x y z. unfold start_le. lra.
    + apply sweep_start_sorted. assumption.
  - destruct (py_sort l) as [| c r]; [constructor |]. apply sweep_apart.
  - intros l1 a l2 b l3 E Hb. destruct (py_sort l) as [| c r].
    + destruct l1; discriminate.
    + simpl. eapply sweep_collapse; eassumption.
  - intros a b -> Hab Hb. simpl. unfold tuple_le in Hab. rewrite Hab. simpl.
    rewrite (proj2 (Qle_bool_iff _ _) Hb).
    apply tuple_le_start in Hab.
    destruct (py_min_spec a.1 b.1) as [[? K] | [? K]]; [lra |].
    rewrite K. reflexivity.
  - intros t. rewrite <- Hcov. destruct (py_sort l) as [| c r]; [reflexivity |].
    simpl. apply sweep_covered. assumption.
Qed.

(** C7: when the keep-segment sequence computed by
    [remove_silence_from_video] is empty, which happens exactly when the
    silent segments are one interval spanning the whole duration, nothing
    is written: the function prints its warning, closes the video and
    returns, without concatenating or writing any clip. *)
Theorem nothing_to_keep_no_write (video : VideoFileClip) (S : list segment) :
  keep_segments S (duration video) = Ok [] ->
  remove_silence_from_video video S
  = Ok [Printed "Warning: No segments to keep after removing silence."; Closed]
  /\ (forall trace, remove_silence_from_video video S = Ok trace ->
                    output_of trace = None)
  /\ (exists s, S = [s] /\ s.1 <= 0 /\ duration video <= s.2).
Proof.
  intros H. destruct S as [| s tl]; [discriminate |].
  rewrite keep_segments_eq in H.
  assert (Hg : gaps (s :: tl) (duration video) = []) by congruence.
  clear H. rename Hg into H.
  assert (E : remove_silence_from_video video (s :: tl)
              = Ok [Printed "Warning: No segments to keep after removing silence.";
                    Closed]).
  { rewrite remove_silence_from_video_cons, H. reflexivity. }
  split; [exact E |]. split.
  - intros trace Ht. rewrite E in Ht. injection Ht as <-. reflexivity.
  - exists s. unfold gaps in H. cbv zeta in H.
    apply app_eq_nil in H. destruct H as [Hlead H].
    apply app_eq_nil in H. destruct H as [Hbetween Htrail].
    destruct tl as [| s' tl]; [| discriminate].
    split; [reflexivity |]. simpl in Htrail.
    destruct (Qlt_bool 0 s.1) eqn:E1; [discriminate |].
    destruct (Qlt_bool s.2 (duration video)) eqn:E2; [discriminate |].
    qprop. split; assumption.
Qed.

Lemma nothing_to_keep_no_write_witness :
  keep_segments [(0, 5)] (duration (recording 5000 [])) = Ok []
  /\ remove_silence_from_video (recording 5000 []) [(0, 5)]
     = Ok [Printed "Warning: No segments to keep after removing silence."; Closed].
Proof.
  split; [reflexivity |].
  exact (proj1 (nothing_to_keep_no_write (recording 5000 []) [(0, 5)] eq_refl)).
Defined.

(** C8, as stated, fails: a reversed interval and a negative one are
    accepted by the merge and by keep-planning, which return results
    computed from them. *)
Lemma malformed_input_is_not_rejected :
  Exists malformed [(5, 1)]
  /\ merged_segments [(5, 1)] = Ok [(5, 1)]
  /\ keep_segments [(5, 1)] 10 = Ok [(0, 5); (1, 10)]
  /\ Exists malformed [(-3, -1)]
  /\ merged_segments [(-3, -1)] = Ok [(-3, -1)]
  /\ keep_segments [(-3, -1)] 10 = Ok [(-1, 10)].
Proof.
  repeat split; try reflexivity.
  - constructor. left. simpl. lra.
  - constructor. right. simpl. lra.
Qed.

(** C8, amended: the merge and the construction of the keep list do not
    validate their input.  On every list of intervals, malformed or not,
    the merge returns a list, a single interval passing through
    unchanged, and for every non-empty list of silences the keep list is
    built from the end points as they are given; neither step of the
    code raises on a reversed or negative interval. *)
Theorem merge_and_plan_do_not_validate :
  (forall l, exists out, merged_segments l = Ok out)
  /\ (forall s, merged_segments [s] = Ok [s])
  /\ (forall s tl total,
         keep_segments (s :: tl) total = Ok (gaps (s :: tl) total)).
Proof.
  split; [| split].
  - intros l. rewrite merged_segments_eq. eexists. reflexivity.
  - intros s. reflexivity.
  - intros s tl total. apply keep_segments_eq.
Qed.

Lemma sorted_pair (R : segment -> segment -> Prop) (l1 : list segment)
    (a : segment) (l2 : list segment) (b : segment) (l3 : list segment) :
  StronglySorted R (l1 ++ a :: l2 ++ b :: l3) -> R a b.
Proof.
  induction l1 as [| x l1 IH]; simpl; intros H.
  - inversion H as [| ? ? _ Hall]; subst. rewrite Forall_forall in Hall.
    apply Hall. apply list_elem_of_In. apply in_or_app. right. left. reflexivity.
  - inversion H; subst. apply IH. assumption.
Qed.

Lemma end_points_In (l : list segment) (x : Q) :
  In x (end_points l) <-> exists s, In s l /\ (x = s.1 \/ x = s.2).
Proof.
  unfold end_points. rewrite in_flat_map. split; intros [s [Hs Hx]]; exists s;
    (split; [assumption |]); simpl in *; intuition congruence.
Qed.

Lemma end_points_perm (l l' : list segment) (x : Q) :
  Permutation l l' -> In x (end_points l) -> In x (end_points l').
Proof.
  intros Hp. rewrite !end_points_In. intros [s [Hs Hx]]. exists s.
  split; [eapply Permutation_in; eassumption | assumption].
Qed.

(** The sweep invents no end point. *)
Lemma sweep_end_points (rest : list segment) (cur : segment) (x : Q) :
  In x (end_points (sweep cur rest)) -> In x (end_points (cur :: rest)).
Proof.
  revert cur. induction rest as [| s rest IH]; intros cur; [auto |].
  simpl. destruct (Qle_bool s.1 cur.2).
  - intros H. apply IH in H. simpl in H.
    destruct H as [<- | [<- | H]]; auto.
    destruct (py_max_spec cur.2 s.2) as [[_ ->] | [_ ->]]; auto.
  - intros [<- | [<- | H]]; auto. apply IH in H. simpl in H. auto.
Qed.

Lemma merge_sorted_end_points (l : list segment) (x : Q) :
  In x (end_points (merge_sorted (py_sort l))) -> In x (end_points l).
Proof.
  intros H. apply (end_points_perm (py_sort l)); [apply py_sort_perm |].
  destruct (py_sort l) as [| c r]; [assumption |].
  apply sweep_end_points. assumption.
Qed.

Lemma segs_eq_eq (points : list Q) (l l' : list segment) :
  (forall x y, In x points -> In y points -> x == y -> x = y) ->
  (forall x, In x (end_points l) -> In x points) ->
  (forall x, In x (end_points l') -> In x points) ->
  segs_eq l l' -> l = l'.
Proof.
  intros Hcan Hl Hl' H. induction H as [| [a1 a2] [b1 b2] l l' [H1 H2] _ IH].
  - reflexivity.
  - simpl in *. f_equal.
    + f_equal; apply Hcan; auto.
    + apply IH; auto.
Qed.

(** C9: merging a permutation of the input yields the same output
    sequence: interval by interval the end points are numerically equal,
    and the two sequences are identical when equal numbers of the input
    are the same number.  The result depends on the input multiset only.
    The sort underneath orders equal starts by ascending end. *)
Theorem merged_segments_permutation (l l' : list segment) :
  Permutation l l' ->
  (exists out out',
      merged_segments l = Ok out /\ merged_segments l' = Ok out'
      /\ segs_eq out out'
      /\ (canonical l -> out = out'))
  /\ (forall l1 a l2 b l3,
         py_sort l = l1 ++ a :: l2 ++ b :: l3 ->
         a.1 <= b.1 /\ (a.1 == b.1 -> a.2 <= b.2)).
Proof.
  intros Hperm. split.
  - rewrite !merged_segments_eq. do 2 eexists.
    split; [reflexivity |]. split; [reflexivity |].
    assert (Heq : segs_eq (merge_sorted (py_sort l)) (merge_sorted (py_sort l'))).
    { pose proof (py_sort_Permutation l l' Hperm) as H.
      destruct H as [| c c' r r' Hc Hr]; [constructor |].
      simpl. apply sweep_seg_eq; assumption. }
    split; [exact Heq |].
    intros Hcan. apply (segs_eq_eq (end_points l)); [exact Hcan | | | exact Heq].
    + apply merge_sorted_end_points.
    + intros x Hx. apply merge_sorted_end_points in Hx.
      apply (end_points_perm l'); [symmetry; assumption | assumption].
  - intros l1 a l2 b l3 E.
    pose proof (py_sort_sorted l) as Hs. rewrite E in Hs.
    apply sorted_pair in Hs. apply tuple_le_iff in Hs.
    destruct Hs as [Hs | [Hs Hs']]; split; lra.
Qed.

Lemma merged_segments_permutation_witness :
  Permutation [(3, 4); (1, 2); (1, 5)] [(1, 5); (3, 4); (1, 2)]
  /\ exists out out',
       merged_segments [(3, 4); (1, 2); (1, 5)] = Ok out
       /\ merged_segments [(1, 5); (3, 4); (1, 2)] = Ok out'
       /\ segs_eq out out'
       /\ (canonical [(3, 4); (1, 2); (1, 5)] -> out = out').
Proof.
  assert (Hperm : Permutation [(3, 4); (1, 2); (1, 5)] [(1, 5); (3, 4); (1, 2)]).
  { apply perm_trans with [(3, 4); (1, 5); (1, 2)].
    - apply perm_skip. apply perm_swap.
    - apply perm_swap. }
  split; [exact Hperm |].
  exact (proj1 (merged_segments_permutation _ _ Hperm)).
Defined.

(** ** [load_config] *)




(** ** Detection without non-silent runs *)

Lemma get_silent_segments_no_runs (a : AudioSegment) (thr min_len : Q) :
  non_silent_ranges a thr min_len = [] ->
  get_silent_segments a thr min_len = Ok [].
Proof.
  intros H. rewrite get_silent_segments_eq.
  fold (non_silent_ranges a thr min_len). rewrite H. reflexivity.
Qed.

(** C1, on a five second track that is silent throughout: the detector
    reports no non-silent run, the specified answer is the one interval
    [(0, 5)], but [get_silent_segments] returns the empty list and the
    track is written out unchanged, with the message that there is
    nothing to remove. *)
Theorem all_silent_track_is_written_unchanged :
  non_silent_ranges (audio silent_track) (-50) (1 # 2) = []
  /\ detect [] (audio_length_sec (audio silent_track)) (1 # 2)
     = [(0, audio_length_sec (audio silent_track))]
  /\ get_silent_segments (audio silent_track) (-50) (1 # 2) = Ok []
  /\ process_video silent_track (-50) (1 # 2)
     = Ok [Printed "No silent segments to remove.";
           Written [(0, duration silent_track)];
           Closed].
Proof. repeat split; reflexivity. Qed.

(** ** Chunked detection on examples *)

Example straddling_silence_is_fused :
  exists out, chunked_detection straddling (-50) (1 # 2) = Ok out
              /\ segs_eq out [(595, 615)].
Proof.
  eexists. split; [vm_compute; reflexivity |].
  repeat constructor; reflexivity.
Qed.

Example isolated_silence_is_found :
  exists out, chunked_detection isolated (-50) (1 # 2) = Ok out
              /\ get_silent_segments (audio isolated) (-50) (1 # 2) = Ok out.
Proof. eexists. split; vm_compute; reflexivity. Qed.

(** C2, on a track of 2400.5 seconds whose last half second is silent:
    no silent span crosses a chunk boundary, whole-track detection finds
    the silence [(2400, 2400.5)], but the chunks stop at 2400, chunked
    detection finds nothing and the video is written out unchanged. *)
Theorem chunked_detection_misses_the_tail :
  Qlt_bool 1800 (duration silent_tail) = true
  /\ (exists out, get_silent_segments (audio silent_tail) (-50) (1 # 2) = Ok out
                  /\ segs_eq out [(2400, 4801 # 2)])
  /\ chunked_detection silent_tail (-50) (1 # 2) = Ok []
  /\ process_video silent_tail (-50) (1 # 2)
     = Ok [Printed "No silent segments to remove.";
           Written [(0, duration silent_tail)];
           Closed].
Proof.
  split; [reflexivity |]. split; [| split; vm_compute; reflexivity].
  eexists. split; [vm_compute; reflexivity |].
  repeat constructor; reflexivity.
Qed.

(** ** The chunk list *)

Lemma py_int_le (x : Q) : (0 < py_int x)%Z -> inject_Z (py_int x) <= x.
Proof.
  destruct x as [n d]. unfold py_int, Qle, inject_Z. simpl. intros H.
  assert (Hn : (0 <= n)%Z).
  { destruct (Z.le_gt_cases 0 n) as [Hn | Hn]; [assumption |]. exfalso.
    replace n with (- (- n))%Z in H by lia.
    rewrite Z.quot_opp_l in H by lia.
    pose proof (Z.quot_pos (- n) (Z.pos d)). lia. }
  rewrite Z.quot_div_nonneg by lia.
  pose proof (Z.mul_div_le n (Z.pos d)). lia.
Qed.

Lemma py_range_lookup (stop : Z) (k : nat) (i : Z) :
  py_range 0 stop chunk_size !! k = Some i ->
  i = (600 * Z.of_nat k)%Z /\ (i < stop)%Z.
Proof.
  unfold py_range, chunk_size. destruct (Z.ltb_spec 0 stop) as [H | H].
  - rewrite list_lookup_fmap.
    destruct (seq 0 (Z.to_nat ((stop - 0 - 1) / 600 + 1)) !! k) as [j |] eqn:E;
      [| discriminate].
    apply lookup_seq in E. destruct E as [-> Hk]. simpl. intros [= <-].
    split; [lia |].
    assert (Hle : (Z.of_nat k <= (stop - 0 - 1) / 600)%Z).
    { pose proof (Z.div_pos (stop - 0 - 1) 600). lia. }
    pose proof (Z.mul_div_le (stop - 0 - 1) 600). nia.
  - rewrite lookup_nil. discriminate.
Qed.

Lemma chunks_lookup (total : Q) (k : nat) (c : Z * Q) :
  chunks total !! k = Some c ->
  c.1 = (600 * Z.of_nat k)%Z
  /\ c.2 = py_min (inject_Z (c.1 + 600)) total
  /\ inject_Z c.1 < total.
Proof.
  unfold chunks. rewrite list_lookup_fmap.
  destruct (py_range 0 (py_int total) chunk_size !! k) as [i |] eqn:E;
    [| discriminate].
  apply py_range_lookup in E. destruct E as [Ei Hlt]. simpl. intros [= <-].
  simpl. split; [assumption |]. split; [reflexivity |].
  assert (H : inject_Z (py_int total) <= total) by (apply py_int_le; lia).
  assert (inject_Z i < inject_Z (py_int total))
    by (rewrite <- Zlt_Qlt; assumption).
  lra.
Qed.

(** X15: what the chunk list does guarantee, for every duration: the first
    chunk starts at 0, every chunk is non-empty, at most 600 seconds long
    and ends within the duration, and every chunk but the last is exactly
    600 seconds long and ends where the next one starts. *)
Lemma chunks_shape (total : Q) :
  (forall c, chunks total !! 0%nat = Some c -> c.1 = 0%Z)
  /\ (forall k c, chunks total !! k = Some c ->
        inject_Z c.1 < c.2 /\ c.2 - inject_Z c.1 <= 600 /\ c.2 <= total)
  /\ (forall k c c', chunks total !! k = Some c ->
        chunks total !! S k = Some c' ->
        c.2 - inject_Z c.1 == 600 /\ c.2 == inject_Z c'.1).
Proof.
  split; [| split].
  - intros c H. apply chunks_lookup in H. destruct H as [-> _]. reflexivity.
  - intros k c H. apply chunks_lookup in H. destruct H as [_ [-> Hlt]].
    rewrite inject_Z_plus. change (inject_Z 600) with 600.
    destruct (py_min_spec (inject_Z c.1 + 600) total)
      as [[? K] | [? K]]; rewrite K; repeat split; lra.
  - intros k c c' H H'. apply chunks_lookup in H, H'.
    destruct H as [E [-> _]], H' as [E' [_ Hlt']].
    assert (E'' : c'.1 = (c.1 + 600)%Z) by lia.
    rewrite E'' in *. rewrite inject_Z_plus in *.
    change (inject_Z 600) with 600 in *.
    destruct (py_min_spec (inject_Z c.1 + 600) total)
      as [[? K] | [? K]]; rewrite K; split; lra.
Qed.

(** C6, at a duration of 2400.5 seconds: the chunk list ends at 2400, so
    the instant 2400, which lies in [[0, 2400.5)], is in no chunk. *)
Theorem chunks_stop_short_of_the_end :
  Qlt_bool 1800 (4801 # 2) = true
  /\ chunks (4801 # 2)
     = [(0%Z, 600); (600%Z, 1200); (1200%Z, 1800); (1800%Z, 2400)]
  /\ covers (0, 4801 # 2) 2400 = true
  /\ ~ covered (map chunk_interval (chunks (4801 # 2))) 2400.
Proof.
  split; [reflexivity |]. split; [reflexivity |]. split; [reflexivity |].
  intros [s [Hin Hc]]. simpl in Hin.
  destruct Hin as [<- | [<- | [<- | [<- | []]]]]; vm_compute in Hc; discriminate.
Qed.

(** * Further properties of the code *)

(** ** [load_config], step by step *)












(** ** More on the merge *)

(** Every output interval starts where some input starts, ends where some
    input ends, and reaches at least as far as the input it starts with. *)
Lemma sweep_origin (rest : list segment) (cur o : segment) :
  In o (sweep cur rest) ->
  exists c c', In c (cur :: rest) /\ In c' (cur :: rest)
               /\ o.1 = c.1 /\ o.2 = c'.2 /\ c.2 <= o.2.
Proof.
  revert cur. induction rest as [| s rest IH]; intros cur; simpl.
  - intros [<- | []]. exists cur, cur. repeat split; auto; lra.
  - destruct (Qle_bool s.1 cur.2).
    + intros H. destruct (IH _ H) as [c [c' [Hc [Hc' [E1 [E2 Hle]]]]]].
      assert (Hmax : cur.2 <= py_max cur.2 s.2
                     /\ (py_max cur.2 s.2 = cur.2 \/ py_max cur.2 s.2 = s.2)).
      { destruct (py_max_spec cur.2 s.2) as [[? K] | [? K]]; rewrite K;
          split; auto; lra. }
      destruct Hmax as [Hmax1 Hmax2].
      assert (Hstart : exists d, In d (cur :: s :: rest)
                                 /\ o.1 = d.1 /\ d.2 <= o.2).
      { destruct Hc as [<- | Hc].
        - exists cur. simpl in *. repeat split; auto. lra.
        - exists c. simpl. auto. }
      assert (Hend : exists d', In d' (cur :: s :: rest) /\ o.2 = d'.2).
      { destruct Hc' as [<- | Hc'].
        - simpl in E2. destruct Hmax2 as [K | K]; rewrite K in E2.
          + exists cur. simpl. auto.
          + exists s. simpl. auto.
        - exists c'. simpl. auto. }
      destruct Hstart as [d [Hd [Hd1 Hd2]]], Hend as [d' [Hd' Hd'2]].
      exists d, d'. auto.
    + intros [<- | H].
      * exists cur, cur. simpl. repeat split; auto; lra.
      * destruct (IH _ H) as [c [c' [Hc [Hc' Hrest]]]].
        exists c, c'. simpl in *. auto.
Qed.

Lemma tuple_le_refl (a : segment) : tuple_le a a.
Proof. apply tuple_le_iff. right. split; [reflexivity | lra]. Qed.

Lemma sweep_tuple_sorted (rest : list segment) (cur : segment) :
  StronglySorted tuple_le (cur :: rest) ->
  StronglySorted tuple_le (sweep cur rest).
Proof.
  revert cur. induction rest as [| s rest IH]; intros cur H; simpl.
  - repeat constructor.
  - inversion H as [| ? ? Hs Hall]; subst.
    inversion Hall as [| ? ? Hcs Hcrest]; subst.
    inversion Hs as [| ? ? Hrest Hsrest]; subst.
    destruct (Qle_bool s.1 cur.2) eqn:E.
    + apply IH. constructor; [assumption |].
      rewrite Forall_forall in Hcrest, Hsrest. apply Forall_forall.
      intros r Hr. specialize (Hcrest r Hr). specialize (Hsrest r Hr).
      apply tuple_le_iff in Hcrest, Hsrest, Hcs. apply tuple_le_iff. simpl.
      destruct (py_max_spec cur.2 s.2) as [[? K] | [? K]]; rewrite K;
        destruct Hcrest as [? | [? ?]], Hsrest as [? | [? ?]],
                 Hcs as [? | [? ?]];
        solve [left; lra | right; split; lra | exfalso; lra].
    + constructor; [apply IH; assumption |].
      apply Forall_forall. intros o Ho. apply list_elem_of_In in Ho.
      destruct (sweep_origin _ _ _ Ho) as [c [_ [Hc [_ [E1 [_ Hle]]]]]].
      assert (Hcc : tuple_le cur c).
      { destruct Hc as [<- | Hc]; [assumption |].
        rewrite Forall_forall in Hcrest.
        apply Hcrest, list_elem_of_In, Hc. }
      apply tuple_le_iff in Hcc. apply tuple_le_iff. rewrite E1.
      destruct Hcc as [? | [? ?]]; [left; lra | right; split; lra].
Qed.

Lemma py_sort_sorted_id (l : list segment) :
  StronglySorted tuple_le l -> py_sort l = l.
Proof.
  induction 1 as [| x l _ IH Hall]; [reflexivity |].
  simpl. rewrite IH. destruct l as [| y l]; [reflexivity |].
  inversion Hall; subst. simpl.
  replace (tuple_lt y x) with false by (symmetry; assumption). reflexivity.
Qed.

Lemma sweep_apart_id (r : list segment) (c : segment) :
  Sorted apart (c :: r) -> sweep c r = c :: r.
Proof.
  revert c. induction r as [| s r IH]; intros c H; [reflexivity |].
  inversion H as [| ? ? Hs Hhd]; subst. inversion Hhd; subst.
  simpl. unfold apart in *.
  rewrite (proj2 (Qle_bool_false s.1 c.2)) by assumption.
  rewrite IH by assumption. reflexivity.
Qed.

Lemma merge_sorted_fixed (l : list segment) :
  StronglySorted tuple_le l -> Sorted apart l ->
  merged_segments l = Ok l.
Proof.
  intros Hs Ha. rewrite merged_segments_eq, py_sort_sorted_id by assumption.
  destruct l as [| c r]; [reflexivity |]. simpl.
  rewrite sweep_apart_id by assumption. reflexivity.
Qed.

Lemma merge_sorted_tuple_sorted (l : list segment) :
  StronglySorted tuple_le (merge_sorted (py_sort l)).
Proof.
  pose proof (py_sort_sorted l) as H.
  destruct (py_sort l) as [| c r]; [constructor |].
  apply sweep_tuple_sorted. assumption.
Qed.

Lemma merge_sorted_apart (l : list segment) :
  Sorted apart (merge_sorted (py_sort l)).
Proof. destruct (py_sort l); [constructor | apply sweep_apart]. Qed.

(** X6: the merge is idempotent: merging its own output changes
    nothing. *)
Theorem merged_segments_idempotent (l out : list segment) :
  merged_segments l = Ok out -> merged_segments out = Ok out.
Proof.
  rewrite merged_segments_eq. intros [= <-].
  apply merge_sorted_fixed;
    [apply merge_sorted_tuple_sorted | apply merge_sorted_apart].
Qed.

Lemma merged_segments_idempotent_witness :
  merged_segments [(3, 4); (1, 2); (1, 5); (7, 8)] = Ok [(1, 5); (7, 8)]
  /\ merged_segments [(1, 5); (7, 8)] = Ok [(1, 5); (7, 8)].
Proof.
  split; [reflexivity |].
  exact (merged_segments_idempotent [(3, 4); (1, 2); (1, 5); (7, 8)] _ eq_refl).
Defined.

Lemma apart_tuple_sorted (l : list segment) :
  Forall (fun s : segment => s.1 <= s.2) l -> Sorted apart l ->
  StronglySorted tuple_le l.
Proof.
  intros Hwf Ha.
  assert (Hlt : StronglySorted (fun a b : segment => a.2 < b.1 /\ a.1 < b.1) l).
  { apply Sorted_StronglySorted.
    - intros x y z [H1 H2] [H3 H4]. split; lra.
    - induction Ha as [| a l Hl IH Hhd]; [constructor |].
      inversion Hwf; subst. constructor; [apply IH; assumption |].
      destruct Hhd as [| b l' Hab]; constructor. unfold apart in Hab.
      cbv beta in *. split; lra. }
  clear Ha Hwf. induction Hlt as [| a l _ IH Hall]; constructor; [assumption |].
  eapply Forall_impl; [exact Hall |]. intros b [_ H].
  apply tuple_le_iff. left. exact H.
Qed.

(** X7: a list of intervals, none reversed, each beginning strictly after
    the previous one has ended, is returned by the merge as it is. *)
Theorem merged_segments_fixed_point (l : list segment) :
  Forall (fun s : segment => s.1 <= s.2) l -> Sorted apart l ->
  merged_segments l = Ok l.
Proof.
  intros Hwf Ha. apply merge_sorted_fixed; [| assumption].
  apply apart_tuple_sorted; assumption.
Qed.

Lemma merged_segments_fixed_point_witness :
  Forall (fun s : segment => s.1 <= s.2) [(0, 1); (3, 21 # 5)]
  /\ Sorted apart [(0, 1); (3, 21 # 5)]
  /\ merged_segments [(0, 1); (3, 21 # 5)] = Ok [(0, 1); (3, 21 # 5)].
Proof.
  assert (Hwf : Forall (fun s : segment => s.1 <= s.2) [(0, 1); (3, 21 # 5)]).
  { repeat constructor; vm_compute; discriminate. }
  assert (Ha : Sorted apart [(0, 1); (3, 21 # 5)]).
  { repeat constructor. }
  split; [exact Hwf |]. split; [exact Ha |].
  exact (merged_segments_fixed_point _ Hwf Ha).
Defined.

Lemma sweep_length (rest : list segment) (cur : segment) :
  (length (sweep cur rest) <= S (length rest))%nat.
Proof.
  revert cur. induction rest as [| s rest IH]; intros cur; simpl; [lia |].
  destruct (Qle_bool s.1 cur.2).
  - specialize (IH (cur.1, py_max cur.2 s.2)). lia.
  - specialize (IH s). simpl. lia.
Qed.

Lemma merge_sorted_origin (l : list segment) (o : segment) :
  In o (merge_sorted (py_sort l)) ->
  exists c c', In c l /\ In c' l /\ o.1 = c.1 /\ o.2 = c'.2 /\ c.2 <= o.2.
Proof.
  intros H.
  assert (Hin : forall x, In x (py_sort l) -> In x l).
  { intros x. apply Permutation_in, py_sort_perm. }
  destruct (py_sort l) as [| c r]; [destruct H |].
  destruct (sweep_origin _ _ _ H) as [a [b [Ha [Hb Hrest]]]].
  exists a, b. auto.
Qed.

(** X8: the merge invents nothing: every output interval starts at the
    start of an input interval and ends at the end of an input interval,
    there are never more output intervals than input intervals, and the
    output is empty only for the empty input. *)
Theorem merged_segments_from_input (l out : list segment) :
  merged_segments l = Ok out ->
  (forall o, In o out ->
     exists a b, In a l /\ In b l /\ o.1 = a.1 /\ o.2 = b.2)
  /\ (length out <= length l)%nat
  /\ (out = [] <-> l = []).
Proof.
  rewrite merged_segments_eq. intros [= <-]. split; [| split].
  - intros o Ho. destruct (merge_sorted_origin _ _ Ho) as [a [b H]].
    exists a, b. tauto.
  - rewrite <- (Permutation_length (py_sort_perm l)).
    destruct (py_sort l) as [| c r]; [simpl; lia |]. apply sweep_length.
  - pose proof (Permutation_length (py_sort_perm l)) as Hlen.
    destruct (py_sort l) as [| c r] eqn:E.
    + destruct l; [tauto | discriminate].
    + destruct (sweep_head r c) as [o [tl [Eo _]]]. simpl. rewrite Eo.
      split; [discriminate | intros ->; discriminate].
Qed.

Lemma merged_segments_from_input_witness :
  merged_segments [(3, 4); (1, 2); (1, 5); (7, 8)] = Ok [(1, 5); (7, 8)]
  /\ (length [(1, 5); (7, 8)] <= length [(3, 4); (1, 2); (1, 5); (7, 8)])%nat.
Proof.
  split; [reflexivity |].
  exact (proj1 (proj2 (merged_segments_from_input
                         [(3, 4); (1, 2); (1, 5); (7, 8)] _ eq_refl))).
Defined.

Lemma apart_disjoint (m : list segment) :
  Sorted apart m -> Sorted (fun a b : segment => a.2 <= b.1) m.
Proof.
  induction 1 as [| a m _ IH Hhd]; constructor; [assumption |].
  destruct Hhd as [| b m' Hab]; constructor. unfold apart in Hab. lra.
Qed.

Lemma merge_sorted_silences_ok (l : list segment) (total : Q) :
  Forall (fun s : segment => 0 <= s.1 /\ s.1 <= s.2 /\ s.2 <= total) l ->
  silences_ok (merge_sorted (py_sort l)) total.
Proof.
  intros Hl. rewrite Forall_forall in Hl.
  assert (Ho : forall o, In o (merge_sorted (py_sort l)) ->
                         0 <= o.1 /\ o.1 <= o.2 /\ o.2 <= total).
  { intros o Hin. destruct (merge_sorted_origin _ _ Hin)
      as [c [c' [Hc [Hc' [E1 [E2 Hle]]]]]].
    apply list_elem_of_In in Hc, Hc'.
    pose proof (Hl c Hc) as [? [? ?]]. pose proof (Hl c' Hc') as [? [? ?]].
    rewrite E1. split; [assumption |]. split; [lra |]. rewrite E2. assumption. }
  split.
  - apply Forall_forall. intros o Hin. apply list_elem_of_In in Hin.
    apply (Ho o Hin).
  - apply Forall_forall. intros o Hin. apply list_elem_of_In in Hin.
    apply (Ho o Hin).
  - apply apart_disjoint, merge_sorted_apart.
  - apply Forall_forall. intros o Hin. apply list_elem_of_In in Hin.
    apply (Ho o Hin).
Qed.

Lemma kept_count (video : VideoFileClip) (S : list segment) (t : Q) :
  silences_ok S (duration video) ->
  count_cover (S ++ kept video S) t = ind 0 (duration video) t.
Proof.
  intros Hok. destruct S as [| s tl].
  - rewrite kept_nil. simpl. rewrite count_cover_cons.
    unfold count_cover. simpl. lia.
  - rewrite kept_cons. apply gaps_count. assumption.
Qed.

(** X9: merge and keep-planning compose.  When every detected interval
    lies within the video, starts at or after 0 and is not reversed, the
    merged list is a silence list as the planner needs it (in order,
    strictly apart, within the video), and the merged silences together
    with the ranges that end up in the output tile [[0, duration)]: each
    instant is either cut or kept, never both. *)
Theorem merge_then_plan (video : VideoFileClip) (l out : list segment) :
  Forall (fun s : segment => 0 <= s.1 /\ s.1 <= s.2 /\ s.2 <= duration video) l ->
  merged_segments l = Ok out ->
  silences_ok out (duration video)
  /\ Sorted apart out
  /\ (forall t, count_cover (out ++ kept video out) t
                = ind 0 (duration video) t).
Proof.
  intros Hl. rewrite merged_segments_eq. intros [= <-].
  pose proof (merge_sorted_silences_ok l (duration video) Hl) as Hok.
  split; [exact Hok |]. split; [apply merge_sorted_apart |].
  intros t. apply kept_count. exact Hok.
Qed.

Lemma merge_then_plan_witness :
  Forall (fun s : segment => 0 <= s.1 /\ s.1 <= s.2
                             /\ s.2 <= duration (recording 5000 []))
         [(3, 21 # 5); (0, 1); (3, 4)]
  /\ merged_segments [(3, 21 # 5); (0, 1); (3, 4)] = Ok [(0, 1); (3, 21 # 5)]
  /\ count_cover ([(0, 1); (3, 21 # 5)]
                    ++ kept (recording 5000 []) [(0, 1); (3, 21 # 5)]) 2
     = ind 0 (duration (recording 5000 [])) 2.
Proof.
  assert (Hl : Forall (fun s : segment => 0 <= s.1 /\ s.1 <= s.2
                                          /\ s.2 <= duration (recording 5000 []))
                      [(3, 21 # 5); (0, 1); (3, 4)]).
  { repeat constructor; vm_compute; discriminate. }
  split; [exact Hl |]. split; [reflexivity |].
  exact (proj2 (proj2 (merge_then_plan (recording 5000 []) _ _ Hl eq_refl)) 2).
Defined.

(** ** More on keep-planning *)

Lemma last_cons_cons (s s' : segment) (tl : list segment) :
  List.last (s :: s' :: tl) s = List.last (s' :: tl) s'.
Proof.
  change (List.last (s :: s' :: tl) s) with (List.last (s' :: tl) s).
  destruct (exists_last (l := s' :: tl)) as [l' [y E]]; [discriminate |].
  rewrite E, !last_last. reflexivity.
Qed.

(** The gaps after the interval [s]: between the neighbours and after the
    last one. *)
Lemma tail_gaps_ok (tl : list segment) (s : segment) (total : Q) :
  Forall (fun s : segment => s.1 <= s.2) (s :: tl) ->
  Sorted apart (s :: tl) ->
  Forall (fun s : segment => s.2 <= total) (s :: tl) ->
  Forall (fun k : segment => s.2 <= k.1 /\ k.1 < k.2 /\ k.2 <= total)
         (between (s :: tl)
            ++ (if Qlt_bool (List.last (s :: tl) s).2 total
                then [((List.last (s :: tl) s).2, total)] else []))
  /\ Sorted (fun a b : segment => a.2 <= b.1)
            (between (s :: tl)
               ++ (if Qlt_bool (List.last (s :: tl) s).2 total
                   then [((List.last (s :: tl) s).2, total)] else [])).
Proof.
  revert s. induction tl as [| s' tl IH]; intros s Hwf Ha Hbd.
  - simpl. destruct (Qlt_bool s.2 total) eqn:E; qprop.
    + split; repeat constructor; simpl; lra.
    + split; constructor.
  - inversion Hwf as [| ? ? Hs Hwf']; subst.
    inversion Ha as [| ? ? Ha' Hhd]; subst. inversion Hhd; subst.
    inversion Hbd as [| ? ? Hb Hbd']; subst.
    assert (Hs' : s'.1 <= s'.2 /\ s'.2 <= total).
    { inversion Hwf'; subst. inversion Hbd'; subst. cbv beta in *. lra. }
    destruct (IH s' Hwf' Ha' Hbd') as [Hall Hsorted].
    rewrite last_cons_cons.
    change (between (s :: s' :: tl)) with ((s.2, s'.1) :: between (s' :: tl)).
    cbn [app]. unfold apart in *. cbv beta in *. split.
    + constructor; [simpl; lra |].
      eapply Forall_impl; [exact Hall |]. intros k [? [? ?]]. lra.
    + constructor; [exact Hsorted |].
      destruct Hall as [| k g [Hk _] _]; constructor. simpl. lra.
Qed.

(** X10: for a non-empty list of silences in order, none reversed, each
    beginning strictly after the previous one has ended, all within the
    video, every clip that is cut out for the output is a proper interval
    (start before end) inside [[0, duration]], and the clips are in
    timeline order, none beginning before the previous one has ended. *)
Theorem kept_clips_proper (video : VideoFileClip) (S : list segment) :
  S <> [] ->
  silences_ok S (duration video) -> Sorted apart S ->
  Forall (fun k : segment => 0 <= k.1 /\ k.1 < k.2 /\ k.2 <= duration video)
         (kept video S)
  /\ Sorted (fun a b : segment => a.2 <= b.1) (kept video S).
Proof.
  intros Hne [Hnn Hord _ Hbd] Ha. destruct S as [| s tl]; [congruence |].
  rewrite kept_cons. unfold gaps. cbv zeta.
  destruct (tail_gaps_ok tl s (duration video) Hord Ha Hbd) as [Hall Hsorted].
  assert (Hs : 0 <= s.1 /\ s.1 <= s.2).
  { inversion Hnn; subst. inversion Hord; subst. cbv beta in *. lra. }
  assert (Hall' : Forall (fun k : segment =>
                            0 <= k.1 /\ k.1 < k.2 /\ k.2 <= duration video)
                    (between (s :: tl)
                       ++ (if Qlt_bool (List.last (s :: tl) s).2 (duration video)
                           then [((List.last (s :: tl) s).2, duration video)]
                           else []))).
  { eapply Forall_impl; [exact Hall |]. intros k [? [? ?]].
    repeat split; lra. }
  destruct (Qlt_bool 0 s.1) eqn:E; qprop; cbn [app].
  - split.
    + constructor; [| exact Hall']. simpl.
      inversion Hbd; subst. cbv beta in *. repeat split; lra.
    + constructor; [exact Hsorted |].
      destruct Hall as [| k g [Hk _] _]; constructor. simpl. lra.
  - split; assumption.
Qed.

Lemma kept_clips_proper_witness :
  [(0, 1); (3, 21 # 5)] <> []
  /\ silences_ok [(0, 1); (3, 21 # 5)] (duration (recording 5000 []))
  /\ Sorted apart [(0, 1); (3, 21 # 5)]
  /\ Forall (fun k : segment =>
               0 <= k.1 /\ k.1 < k.2 /\ k.2 <= duration (recording 5000 []))
            (kept (recording 5000 []) [(0, 1); (3, 21 # 5)]).
Proof.
  assert (Hne : [(0, 1); (3, 21 # 5)] <> ([] : list segment)) by discriminate.
  assert (Hok : silences_ok [(0, 1); (3, 21 # 5)] (duration (recording 5000 []))).
  { split; repeat constructor; vm_compute; discriminate. }
  assert (Ha : Sorted apart [(0, 1); (3, 21 # 5)]) by repeat constructor.
  split; [exact Hne |]. split; [exact Hok |]. split; [exact Ha |].
  exact (proj1 (kept_clips_proper (recording 5000 []) _ Hne Hok Ha)).
Defined.

Lemma total_length_app (l l' : list segment) :
  total_length (l ++ l') == total_length l + total_length l'.
Proof.
  induction l as [| s l IH]; simpl; [lra |]. rewrite IH. lra.
Qed.

(** Silences and the gaps between them add up to the stretch from the
    first start to the last end, whatever their order. *)
Lemma chain_length (tl : list segment) (s : segment) :
  total_length (s :: tl) + total_length (between (s :: tl))
  == (List.last (s :: tl) s).2 - s.1.
Proof.
  revert s. induction tl as [| s' tl IH]; intros s.
  - simpl. lra.
  - rewrite last_cons_cons.
    change (between (s :: s' :: tl)) with ((s.2, s'.1) :: between (s' :: tl)).
    specialize (IH s').
    change (total_length (s :: s' :: tl))
      with ((s.2 - s.1) + total_length (s' :: tl)).
    change (total_length ((s.2, s'.1) :: between (s' :: tl)))
      with ((s'.1 - s.2) + total_length (between (s' :: tl))).
    lra.
Qed.

(** X11: the output is as long as the video minus the silences: for a
    silence list in order and within the video, the lengths of the kept
    ranges and the lengths of the silences add up to the duration. *)
Theorem kept_length (video : VideoFileClip) (S : list segment) :
  silences_ok S (duration video) ->
  total_length (kept video S) + total_length S == duration video.
Proof.
  intros [Hnn Hord Hdis Hbd]. destruct S as [| s tl].
  - rewrite kept_nil. simpl. lra.
  - rewrite kept_cons. unfold gaps. cbv zeta.
    rewrite !total_length_app.
    pose proof (chain_length tl s) as Hchain.
    assert (Hfirst : 0 <= s.1) by (inversion Hnn; assumption).
    assert (Hlast : (List.last (s :: tl) s).2 <= duration video).
    { rewrite Forall_forall in Hbd.
      apply (Hbd (List.last (s :: tl) s)), list_elem_of_In, last_In. }
    set (TS := total_length (s :: tl)) in *.
    set (TB := total_length (between (s :: tl))) in *.
    destruct (Qlt_bool 0 s.1) eqn:E1,
             (Qlt_bool (List.last (s :: tl) s).2 (duration video)) eqn:E2;
      qprop; cbn [total_length fold_right fst snd]; lra.
Qed.

Lemma kept_length_witness :
  silences_ok [(0, 1); (3, 21 # 5)] (duration (recording 5000 []))
  /\ total_length (kept (recording 5000 []) [(0, 1); (3, 21 # 5)])
     + total_length [(0, 1); (3, 21 # 5)]
     == duration (recording 5000 []).
Proof.
  assert (Hok : silences_ok [(0, 1); (3, 21 # 5)] (duration (recording 5000 []))).
  { split; repeat constructor; vm_compute; discriminate. }
  split; [exact Hok |]. exact (kept_length _ _ Hok).
Defined.

(** ** More on detection *)

Lemma tail_gaps_ordered (tl : list segment) (s : segment) (total : Q) :
  Forall (fun s : segment => s.1 <= s.2) (s :: tl) ->
  Sorted (fun a b : segment => a.2 <= b.1) (s :: tl) ->
  Forall (fun s : segment => s.2 <= total) (s :: tl) ->
  Forall (fun k : segment => s.2 <= k.1 /\ k.1 <= k.2 /\ k.2 <= total)
         (between (s :: tl)
            ++ (if Qlt_bool (List.last (s :: tl) s).2 total
                then [((List.last (s :: tl) s).2, total)] else []))
  /\ StronglySorted (fun a b : segment => a.2 <= b.1)
       (between (s :: tl)
          ++ (if Qlt_bool (List.last (s :: tl) s).2 total
              then [((List.last (s :: tl) s).2, total)] else [])).
Proof.
  revert s. induction tl as [| s' tl IH]; intros s Hwf Ha Hbd.
  - simpl. destruct (Qlt_bool s.2 total) eqn:E; qprop.
    + split; repeat constructor; simpl; lra.
    + split; constructor.
  - inversion Hwf as [| ? ? Hs Hwf']; subst.
    inversion Ha as [| ? ? Ha' Hhd]; subst. inversion Hhd; subst.
    inversion Hbd as [| ? ? Hb Hbd']; subst.
    assert (Hs' : s'.1 <= s'.2 /\ s'.2 <= total).
    { inversion Hwf'; subst. inversion Hbd'; subst. cbv beta in *. lra. }
    destruct (IH s' Hwf' Ha' Hbd') as [Hall Hsorted].
    rewrite last_cons_cons.
    change (between (s :: s' :: tl)) with ((s.2, s'.1) :: between (s' :: tl)).
    cbn [app]. cbv beta in *. split.
    + constructor; [simpl; lra |].
      eapply Forall_impl; [exact Hall |]. intros k [? [? ?]]. lra.
    + constructor; [exact Hsorted |].
      eapply Forall_impl; [exact Hall |]. intros k [? _]. simpl. lra.
Qed.

Lemma gaps_ordered (l : list segment) (total : Q) :
  silences_ok l total ->
  Forall (fun k : segment => 0 <= k.1 /\ k.1 <= k.2 /\ k.2 <= total)
         (gaps l total)
  /\ StronglySorted (fun a b : segment => a.2 <= b.1) (gaps l total).
Proof.
  intros [Hnn Hord Hdis Hbd]. destruct l as [| s tl]; [split; constructor |].
  unfold gaps. cbv zeta.
  destruct (tail_gaps_ordered tl s total Hord Hdis Hbd) as [Hall Hsorted].
  assert (Hs : 0 <= s.1 /\ s.1 <= s.2 /\ s.2 <= total).
  { inversion Hnn; subst. inversion Hord; subst. inversion Hbd; subst.
    cbv beta in *. lra. }
  assert (Hall' : Forall (fun k : segment =>
                            0 <= k.1 /\ k.1 <= k.2 /\ k.2 <= total)
                    (between (s :: tl)
                       ++ (if Qlt_bool (List.last (s :: tl) s).2 total
                           then [((List.last (s :: tl) s).2, total)]
                           else []))).
  { eapply Forall_impl; [exact Hall |]. intros k [? [? ?]].
    repeat split; lra. }
  destruct (Qlt_bool 0 s.1) eqn:E; qprop; cbn [app].
  - split.
    + constructor; [simpl; repeat split; lra | exact Hall'].
    + constructor; [exact Hsorted |].
      eapply Forall_impl; [exact Hall |]. intros k [? _]. simpl. lra.
  - split; assumption.
Qed.

Lemma filter_strongly_sorted (R : segment -> segment -> Prop)
    (f : segment -> bool) (l : list segment) :
  StronglySorted R l -> StronglySorted R (List.filter f l).
Proof.
  induction 1 as [| a l _ IH Hall]; simpl; [constructor |].
  destruct (f a); [| assumption]. constructor; [assumption |].
  apply Forall_forall. intros b Hb. apply list_elem_of_In in Hb.
  apply List.filter_In in Hb. destruct Hb as [Hb _].
  rewrite Forall_forall in Hall. apply Hall, list_elem_of_In, Hb.
Qed.

Lemma filter_Forall (P : segment -> Prop) (f : segment -> bool)
    (l : list segment) :
  Forall P l -> Forall P (List.filter f l).
Proof.
  intros H. apply Forall_forall. intros b Hb. apply list_elem_of_In in Hb.
  apply List.filter_In in Hb. destruct Hb as [Hb _].
  rewrite Forall_forall in H. apply H, list_elem_of_In, Hb.
Qed.

Lemma count_cover_In (l : list segment) (s : segment) (t : Q) :
  In s l -> covers s t = true -> (1 <= count_cover l t)%nat.
Proof.
  intros Hin Hc. induction l as [| a l IH]; [destruct Hin |].
  rewrite count_cover_cons. destruct Hin as [-> | Hin].
  - unfold ind. destruct s as [s1 s2]. simpl in *. rewrite Hc. lia.
  - specialize (IH Hin). lia.
Qed.

Lemma count_cover_covered (l : list segment) (t : Q) :
  (1 <= count_cover l t)%nat <-> covered l t.
Proof.
  split.
  - induction l as [| a l IH]; [unfold count_cover; simpl; lia |].
    rewrite count_cover_cons, covered_cons. unfold ind.
    destruct a as [a1 a2]. simpl. destruct (covers (a1, a2) t); [auto |].
    intros H. right. apply IH. lia.
  - intros [s [Hin Hc]]. eapply count_cover_In; eassumption.
Qed.

Lemma silences_ok_mono (l : list segment) (total total' : Q) :
  total <= total' -> silences_ok l total -> silences_ok l total'.
Proof.
  intros Hle [Hnn Hord Hdis Hbd]. split; try assumption.
  eapply Forall_impl; [exact Hbd |]. intros s Hs. cbv beta in *. lra.
Qed.

(** What [get_silent_segments] returns when the runs are in order. *)
Lemma detected_ok (a : AudioSegment) (thr min_len : Q) :
  runs_ok a thr min_len ->
  silences_ok (List.filter (long_enough min_len)
                 (gaps (non_silent_ranges a thr min_len) (audio_length_sec a)))
              (audio_length_sec a)
  /\ (forall r t, In r (non_silent_ranges a thr min_len) ->
        covers r t = true ->
        ~ covered (List.filter (long_enough min_len)
                     (gaps (non_silent_ranges a thr min_len)
                           (audio_length_sec a))) t).
Proof.
  intros Hruns. unfold runs_ok in Hruns.
  destruct (gaps_ordered _ _ Hruns) as [Hall Hsorted]. split.
  - split.
    + apply filter_Forall. eapply Forall_impl; [exact Hall |].
      intros k [? _]. assumption.
    + apply filter_Forall. eapply Forall_impl; [exact Hall |].
      intros k [_ [? _]]. assumption.
    + apply StronglySorted_Sorted, filter_strongly_sorted, Hsorted.
    + apply filter_Forall. eapply Forall_impl; [exact Hall |].
      intros k [_ [_ ?]]. assumption.
  - intros r t Hr Hc [g [Hg Hgc]].
    apply List.filter_In in Hg. destruct Hg as [Hg _].
    assert (Hone : (count_cover
                      (non_silent_ranges a thr min_len
                         ++ gaps (non_silent_ranges a thr min_len)
                                 (audio_length_sec a)) t <= 1)%nat).
    { destruct (non_silent_ranges a thr min_len) as [| s tl] eqn:E;
        [destruct Hr |].
      rewrite (gaps_count s tl _ t Hruns). unfold ind.
      destruct (covers (0, audio_length_sec a) t); lia. }
    rewrite count_cover_app in Hone.
    pose proof (count_cover_In _ _ _ Hr Hc).
    pose proof (count_cover_In _ _ _ Hg Hgc). lia.
Qed.


Lemma sample_runs_ok :
  runs_ok (audio (recording 5000 [(1000, 3000); (4200, 5000)]%Z)) (-50) (1 # 2).
Proof. split; repeat constructor; vm_compute; discriminate. Qed.


(** X13: whole-track processing never cuts sound: when the detector
    reports its runs in timeline order and the audio is no longer than
    the video, [process_short_video] runs to the end and every instant of
    every non-silent run is inside a range that goes to the output. *)
Theorem process_short_video_keeps_sound (video : VideoFileClip)
    (thr min_len : Q) :
  runs_ok (audio video) thr min_len ->
  audio_length_sec (audio video) <= duration video ->
  exists silent_segments trace,
    get_silent_segments (audio video) thr min_len = Ok silent_segments
    /\ process_short_video video thr min_len = Ok trace
    /\ default [] (output_of trace) = kept video silent_segments
    /\ (forall r t, In r (non_silent_ranges (audio video) thr min_len) ->
          covers r t = true -> covered (kept video silent_segments) t).
Proof.
  intros Hruns Hlen. unfold process_short_video.
  rewrite get_silent_segments_eq.
  fold (non_silent_ranges (audio video) thr min_len).
  fold (audio_length_sec (audio video)).
  destruct (detected_ok (audio video) thr min_len Hruns) as [Hok Hdis].
  set (out := List.filter (long_enough min_len)
                (gaps (non_silent_ranges (audio video) thr min_len)
                      (audio_length_sec (audio video)))) in *.
  cbn [mbind result_bind].
  assert (Htrace : exists trace, remove_silence_from_video video out = Ok trace).
  { destruct out as [| s tl]; [eexists; reflexivity |].
    rewrite remove_silence_from_video_cons. eexists. reflexivity. }
  destruct Htrace as [trace Et]. exists out, trace.
  split; [reflexivity |]. split; [exact Et |]. split.
  - unfold kept. rewrite Et. reflexivity.
  - intros r t Hr Hc.
    apply count_cover_covered.
    pose proof (kept_count video out t (silences_ok_mono _ _ _ Hlen Hok)) as Hcount.
    rewrite count_cover_app in Hcount.
    assert (Hzero : count_cover out t = 0%nat).
    { destruct (count_cover out t) eqn:E; [reflexivity |].
      exfalso. apply (Hdis r t Hr Hc). apply count_cover_covered. lia. }
    assert (Hin : ind 0 (duration video) t = 1%nat).
    { unfold runs_ok in Hruns. destruct Hruns as [Hnn _ _ Hbd].
      rewrite Forall_forall in Hnn, Hbd. apply list_elem_of_In in Hr.
      specialize (Hnn r Hr). specialize (Hbd r Hr). cbv beta in *.
      apply covers_iff in Hc. unfold ind.
      replace (covers (0, duration video) t) with true; [reflexivity |].
      symmetry. apply covers_iff. simpl. lra. }
    lia.
Qed.

Lemma process_short_video_keeps_sound_witness :
  runs_ok (audio (recording 5000 [(1000, 3000); (4200, 5000)]%Z)) (-50) (1 # 2)
  /\ audio_length_sec (audio (recording 5000 [(1000, 3000); (4200, 5000)]%Z))
     <= duration (recording 5000 [(1000, 3000); (4200, 5000)]%Z)
  /\ exists silent_segments trace,
       get_silent_segments
         (audio (recording 5000 [(1000, 3000); (4200, 5000)]%Z)) (-50) (1 # 2)
       = Ok silent_segments
       /\ process_short_video
            (recording 5000 [(1000, 3000); (4200, 5000)]%Z) (-50) (1 # 2)
          = Ok trace.
Proof.
  assert (Hlen : audio_length_sec
                   (audio (recording 5000 [(1000, 3000); (4200, 5000)]%Z))
                 <= duration (recording 5000 [(1000, 3000); (4200, 5000)]%Z)).
  { vm_compute. discriminate. }
  split; [exact sample_runs_ok |]. split; [exact Hlen |].
  destruct (process_short_video_keeps_sound _ _ _ sample_runs_ok Hlen)
    as [silent_segments [trace [E1 [E2 _]]]].
  exists silent_segments, trace. split; assumption.
Defined.

(** ** More on chunked processing *)



(** ** The chunk list as a tiling *)

Lemma chunks_eq (total : Q) :
  chunks total = map (nth_chunk total) (seq 0 (chunk_count total)).
Proof.
  unfold chunks, py_range, chunk_count.
  destruct (0 <? py_int total)%Z; [| reflexivity].
  rewrite map_map. reflexivity.
Qed.

Lemma chunk_count_spec (total : Q) (k : nat) :
  (k < chunk_count total)%nat ->
  inject_Z (Z.of_nat k * 600) < inject_Z (py_int total)
  /\ inject_Z (py_int total) <= total.
Proof.
  unfold chunk_count, chunk_size.
  destruct (Z.ltb_spec 0 (py_int total)) as [H | H]; [| lia].
  intros Hk. split; [| apply py_int_le; assumption].
  rewrite <- Zlt_Qlt.
  assert (Hle : (Z.of_nat k <= (py_int total - 0 - 1) / 600)%Z).
  { pose proof (Z.div_pos (py_int total - 0 - 1) 600). lia. }
  pose proof (Z.mul_div_le (py_int total - 0 - 1) 600). nia.
Qed.

Lemma chunk_count_reach (total : Q) :
  inject_Z (py_int total) <= inject_Z (Z.of_nat (chunk_count total) * 600)
  \/ (py_int total <= 0)%Z.
Proof.
  unfold chunk_count, chunk_size.
  destruct (Z.ltb_spec 0 (py_int total)) as [H | H]; [left | right; lia].
  rewrite <- Zle_Qle.
  pose proof (Z.div_pos (py_int total - 0 - 1) 600).
  rewrite Z2Nat.id by lia.
  pose proof (Z.mod_pos_bound (py_int total - 0 - 1) 600).
  pose proof (Z.div_mod (py_int total - 0 - 1) 600). lia.
Qed.

(** Consecutive windows, as long as each starts before the end, count as
    one interval from the first start to the last end. *)
Lemma chunk_run_count (total t : Q) (len a : nat) :
  inject_Z (Z.of_nat (a + len) * 600) < total ->
  count_cover (map chunk_interval (map (nth_chunk total) (seq a (S len)))) t
  = ind (inject_Z (Z.of_nat a * 600))
        (py_min (inject_Z (Z.of_nat (a + S len) * 600)) total) t.
Proof.
  revert a. induction len as [| len IH]; intros a Hlt.
  - cbn [seq map]. rewrite count_cover_cons. unfold count_cover at 1.
    cbn [List.filter length]. unfold chunk_interval, nth_chunk, chunk_size.
    cbn [fst snd].
    replace (0 + Z.of_nat a * 600 + 600)%Z with (Z.of_nat (a + 1) * 600)%Z by lia.
    replace (0 + Z.of_nat a * 600)%Z with (Z.of_nat a * 600)%Z by lia.
    lia.
  - change (map chunk_interval (map (nth_chunk total) (seq a (S (S len)))))
      with (chunk_interval (nth_chunk total a)
              :: map chunk_interval
                   (map (nth_chunk total) (seq (S a) (S len)))).
    rewrite count_cover_cons.
    rewrite (IH (S a)) by (replace (S a + len)%nat with (a + S len)%nat by lia;
                           exact Hlt).
    unfold chunk_interval, nth_chunk, chunk_size. cbn [fst snd].
    replace (0 + Z.of_nat a * 600 + 600)%Z with (Z.of_nat (S a) * 600)%Z by lia.
    replace (0 + Z.of_nat a * 600)%Z with (Z.of_nat a * 600)%Z by lia.
    replace (S a + S len)%nat with (a + S (S len))%nat by lia.
    assert (H1 : inject_Z (Z.of_nat (S a) * 600)
                 <= inject_Z (Z.of_nat (a + S len) * 600)).
    { rewrite <- Zle_Qle. lia. }
    assert (H0 : inject_Z (Z.of_nat a * 600) <= inject_Z (Z.of_nat (S a) * 600)).
    { rewrite <- Zle_Qle. lia. }
    assert (H2 : inject_Z (Z.of_nat (a + S len) * 600)
                 <= inject_Z (Z.of_nat (a + S (S len)) * 600)).
    { rewrite <- Zle_Qle. lia. }
    destruct (py_min_spec (inject_Z (Z.of_nat (S a) * 600)) total)
      as [[? K] | [? K]]; [exfalso; lra |]. rewrite K.
    apply ind_join; [assumption |].
    destruct (py_min_spec (inject_Z (Z.of_nat (a + S (S len)) * 600)) total)
      as [[? K'] | [? K']]; rewrite K'; lra.
Qed.

(** X16: the chunks are a tiling: no instant is in two chunks, every
    instant from 0 up to the duration rounded down to whole seconds is in
    exactly one chunk, and no chunk reaches outside [[0, duration)]. *)
Theorem chunks_tile (total t : Q) :
  (count_cover (map chunk_interval (chunks total)) t <= 1)%nat
  /\ (0 <= t -> t < inject_Z (py_int total) ->
      count_cover (map chunk_interval (chunks total)) t = 1%nat)
  /\ (covered (map chunk_interval (chunks total)) t -> 0 <= t /\ t < total).
Proof.
  rewrite chunks_eq.
  destruct (chunk_count total) as [| n] eqn:En.
  - simpl. split; [unfold count_cover; simpl; lia |]. split.
    + intros H0 Ht. exfalso.
      destruct (chunk_count_reach total) as [H | H].
      * rewrite En in H. change (inject_Z (Z.of_nat 0 * 600)) with 0 in H. lra.
      * assert (inject_Z (py_int total) <= inject_Z 0)
          by (rewrite <- Zle_Qle; assumption).
        change (inject_Z 0) with 0 in *. lra.
    + intros H. exfalso. exact (covered_nil t H).
  - assert (Hn : (n < chunk_count total)%nat) by lia.
    destruct (chunk_count_spec total n Hn) as [Hlt Hle].
    assert (Hcount :
              count_cover
                (map chunk_interval (map (nth_chunk total) (seq 0 (S n)))) t
              = ind 0 (py_min (inject_Z (Z.of_nat (S n) * 600)) total) t).
    { rewrite (chunk_run_count total t n 0)
        by (replace (0 + n)%nat with n by lia; lra).
      reflexivity. }
    assert (Hend : py_min (inject_Z (Z.of_nat (S n) * 600)) total <= total
                   /\ inject_Z (py_int total)
                      <= py_min (inject_Z (Z.of_nat (S n) * 600)) total).
    { destruct (chunk_count_reach total) as [H | H].
      - rewrite En in H.
        destruct (py_min_spec (inject_Z (Z.of_nat (S n) * 600)) total)
          as [[? K] | [? K]]; rewrite K; split; lra.
      - exfalso. unfold chunk_count in En.
        destruct (Z.ltb_spec 0 (py_int total)); [lia | discriminate]. }
    destruct Hend as [Hend1 Hend2].
    split; [| split].
    + rewrite Hcount. unfold ind.
      destruct (covers (0, py_min (inject_Z (Z.of_nat (S n) * 600)) total) t);
        lia.
    + intros H0 Ht. rewrite Hcount. unfold ind.
      replace (covers (0, py_min (inject_Z (Z.of_nat (S n) * 600)) total) t)
        with true; [reflexivity |].
      symmetry. apply covers_iff. simpl. lra.
    + intros Hcov. apply count_cover_covered in Hcov. rewrite Hcount in Hcov.
      unfold ind in Hcov.
      destruct (covers (0, py_min (inject_Z (Z.of_nat (S n) * 600)) total) t)
        eqn:Ec; [| lia].
      apply covers_iff in Ec. simpl in Ec. lra.
Qed.

(** ** Chunked processing end to end *)








(** * The binary64 embedding *)

(** ** [get_silent_segments] over floats *)








(** ** Facts about binary64 *)

Lemma Prim2SF_zero : Prim2SF 0 = S754_zero false.
Proof. reflexivity. Qed.

Lemma Prim2SF_hundred : exists m e, Prim2SF 100 = S754_finite false m e.
Proof. do 2 eexists. reflexivity. Qed.

(** A float above zero is a positive finite number or plus infinity. *)
Lemma positive_float (t : float) :
  PrimFloat.ltb 0 t = true ->
  (exists m e, Prim2SF t = S754_finite false m e)
  \/ Prim2SF t = S754_infinity false.
Proof.
  rewrite FloatAxioms.ltb_spec, Prim2SF_zero. unfold SFltb, SFcompare.
  destruct (Prim2SF t) as [s | s | | s m e]; try discriminate.
  - destruct s; [discriminate | auto].
  - destruct s; [discriminate |]. left. eauto.
Qed.

Lemma round_keeps_sign (mx ex : Z) (lx : location) :
  SFabs (binary_round_aux prec emax false mx ex lx)
  = binary_round_aux prec emax false mx ex lx.
Proof.
  unfold binary_round_aux.
  destruct (shr_fexp prec emax mx ex lx) as [mrs' e'].
  destruct (shr_fexp prec emax
              (round_nearest_even (shr_m mrs') (loc_of_shr_record mrs'))
              e' loc_Exact) as [mrs'' e''].
  destruct (shr_m mrs''); [reflexivity | | reflexivity].
  destruct (e'' <=? emax - prec)%Z; reflexivity.
Qed.

(** On a positive threshold the [abs] of line 42 changes nothing. *)
Lemma abs_times_100 (t : float) :
  PrimFloat.ltb 0 t = true ->
  PrimFloat.abs (PrimFloat.mul t 100) = PrimFloat.mul t 100.
Proof.
  intros Ht. apply Prim2SF_inj. rewrite FloatAxioms.abs_spec, FloatAxioms.mul_spec.
  destruct Prim2SF_hundred as [m100 [e100 E100]]. rewrite E100.
  destruct (positive_float t Ht) as [[m [e E]] | E]; rewrite E.
  - unfold SF64mul, SFmul. cbn [xorb]. apply round_keeps_sign.
  - reflexivity.
Qed.

(** The negated absolute value of a float is never above zero. *)
Lemma neg_abs_not_positive (y : float) :
  PrimFloat.ltb 0 (PrimFloat.opp (PrimFloat.abs y)) = false.
Proof.
  rewrite FloatAxioms.ltb_spec, FloatAxioms.opp_spec, FloatAxioms.abs_spec, Prim2SF_zero.
  destruct (Prim2SF y) as [s | s | | s m e]; reflexivity.
Qed.

(** ** [load_config] over Python values *)

Lemma load_config_f_steps (dirname : string -> string) (config_path : string)
    (config config' : gmap string Binary64.pyval) :
  Binary64.load_config dirname config_path (Binary64.Parsed config) = Ok config'
  <-> exists c1,
        Binary64.set_silence_threshold config = Ok c1
        /\ Binary64.set_output_path dirname (Binary64.set_min_silence_length c1)
           = Ok config'.
Proof.
  unfold Binary64.load_config. split.
  - destruct (Binary64.set_silence_threshold config) as [c1 | e];
      [| discriminate].
    cbn [mbind result_bind]. intros H. exists c1. auto.
  - intros [c1 [E1 E3]]. rewrite E1. exact E3.
Qed.

(** What the threshold step does, case by case. *)
Lemma set_silence_threshold_f_cases (config : gmap string Binary64.pyval) :
  match config !! "silence_threshold" with
  | None =>
      Binary64.set_silence_threshold config
      = Ok (<["silence_threshold" := Binary64.PInt (-50)]> config)
  | Some v =>
      match Binary64.gt_zero v with
      | Raise _ => Binary64.set_silence_threshold config = Raise TypeError
      | Ok false => Binary64.set_silence_threshold config = Ok config
      | Ok true =>
          exists v', Binary64.neg_abs_times_100 v = Ok v'
                     /\ Binary64.set_silence_threshold config
                        = Ok (<["silence_threshold" := v']> config)
      end
  end.
Proof.
  unfold Binary64.set_silence_threshold.
  destruct (config !! "silence_threshold") as [v |]; [| reflexivity].
  destruct v as [| b | n | x | s | l | d]; cbn; try reflexivity.
  - destruct b; [| reflexivity]. eexists. split; reflexivity.
  - destruct (0 <? n)%Z; [| reflexivity]. eexists. split; reflexivity.
  - destruct (PrimFloat.ltb 0 x); [| reflexivity]. eexists. split; reflexivity.
Qed.

Lemma set_silence_threshold_f_other (config c1 : gmap string Binary64.pyval)
    (k : string) :
  k <> "silence_threshold" ->
  Binary64.set_silence_threshold config = Ok c1 ->
  c1 !! k = config !! k.
Proof.
  intros Hk H. pose proof (set_silence_threshold_f_cases config) as Hc.
  destruct (config !! "silence_threshold") as [v |].
  - destruct (Binary64.gt_zero v) as [[|] | e].
    + destruct Hc as [v' [_ Hc]]. rewrite Hc in H. injection H as <-.
      apply lookup_insert_ne. congruence.
    + rewrite Hc in H. injection H as <-. reflexivity.
    + rewrite Hc in H. discriminate.
  - rewrite Hc in H. injection H as <-. apply lookup_insert_ne. congruence.
Qed.

Lemma set_min_silence_length_f_other (config : gmap string Binary64.pyval)
    (k : string) :
  k <> "min_silence_length" ->
  Binary64.set_min_silence_length config !! k = config !! k.
Proof.
  intros Hk. unfold Binary64.set_min_silence_length.
  destruct (config !! "min_silence_length"); [reflexivity |].
  apply lookup_insert_ne. congruence.
Qed.

Lemma set_min_silence_length_f_lookup (config : gmap string Binary64.pyval) :
  Binary64.set_min_silence_length config !! "min_silence_length"
  = Some (default (Binary64.PFloat 0.5) (config !! "min_silence_length")).
Proof.
  unfold Binary64.set_min_silence_length.
  destruct (config !! "min_silence_length") eqn:E; simpl;
    [exact E | apply lookup_insert_eq].
Qed.

Lemma set_output_path_f_other (dirname : string -> string)
    (config config' : gmap string Binary64.pyval) (k : string) :
  k <> "output_path" ->
  Binary64.set_output_path dirname config = Ok config' ->
  config' !! k = config !! k.
Proof.
  intros Hk. unfold Binary64.set_output_path.
  destruct (config !! "output_path"); [intros [= <-]; reflexivity |].
  destruct (config !! "input_path") as [v |]; [| intros [= <-]; reflexivity].
  destruct v; try discriminate. intros [= <-].
  apply lookup_insert_ne. congruence.
Qed.

(** The lookups of the returned configuration in terms of the steps. *)
Lemma load_config_f_lookups (dirname : string -> string) (config_path : string)
    (config config' : gmap string Binary64.pyval) :
  Binary64.load_config dirname config_path (Binary64.Parsed config) = Ok config' ->
  exists c1,
    Binary64.set_silence_threshold config = Ok c1
    /\ config' !! "silence_threshold" = c1 !! "silence_threshold"
    /\ config' !! "min_silence_length"
       = Some (default (Binary64.PFloat 0.5) (config !! "min_silence_length")).
Proof.
  intros H. apply load_config_f_steps in H. destruct H as [c1 [E1 E3]].
  exists c1. split; [exact E1 |]. split.
  - rewrite (set_output_path_f_other dirname _ config' "silence_threshold"
               ltac:(discriminate) E3).
    apply set_min_silence_length_f_other. discriminate.
  - rewrite (set_output_path_f_other dirname _ config' "min_silence_length"
               ltac:(discriminate) E3).
    rewrite set_min_silence_length_f_lookup.
    rewrite (set_silence_threshold_f_other config c1 "min_silence_length"
               ltac:(discriminate) E1).
    reflexivity.
Qed.

(** [load_config] returns on [loads], and raises [TypeError] otherwise. *)
Lemma load_config_f_outcome (dirname : string -> string) (config_path : string)
    (config : gmap string Binary64.pyval) :
  (Binary64.loads config ->
   exists config',
     Binary64.load_config dirname config_path (Binary64.Parsed config)
     = Ok config')
  /\ (~ Binary64.loads config ->
      Binary64.load_config dirname config_path (Binary64.Parsed config)
      = Raise TypeError).
Proof.
  unfold Binary64.loads, Binary64.load_config.
  pose proof (set_silence_threshold_f_cases config) as Hc.
  assert (Hpath : forall c1,
             Binary64.set_silence_threshold config = Ok c1 ->
             Binary64.set_output_path dirname (Binary64.set_min_silence_length c1)
             = match config !! "output_path", config !! "input_path" with
               | None, Some (Binary64.PStr p) =>
                   Ok (<["output_path" := Binary64.PStr (dirname p)]>
                         (Binary64.set_min_silence_length c1))
               | None, Some _ => Raise TypeError
               | _, _ => Ok (Binary64.set_min_silence_length c1)
               end).
  { intros c1 E1. unfold Binary64.set_output_path.
    rewrite !set_min_silence_length_f_other by discriminate.
    rewrite (set_silence_threshold_f_other config c1 "output_path"
               ltac:(discriminate) E1).
    rewrite (set_silence_threshold_f_other config c1 "input_path"
               ltac:(discriminate) E1).
    reflexivity. }
  assert (Hstep : forall c1,
             Binary64.set_silence_threshold config = Ok c1 ->
             (match config !! "output_path", config !! "input_path" with
              | None, Some (Binary64.PStr _) => True
              | None, Some _ => False
              | _, _ => True
              end ->
              exists config',
                Binary64.set_output_path dirname
                  (Binary64.set_min_silence_length c1) = Ok config')
             /\ (~ match config !! "output_path", config !! "input_path" with
                   | None, Some (Binary64.PStr _) => True
                   | None, Some _ => False
                   | _, _ => True
                   end ->
                 Binary64.set_output_path dirname
                   (Binary64.set_min_silence_length c1) = Raise TypeError)).
  { intros c1 E1. rewrite (Hpath c1 E1).
    destruct (config !! "output_path");
      [split; [eexists; reflexivity | tauto] |].
    destruct (config !! "input_path") as [v |];
      [| split; [eexists; reflexivity | tauto]].
    destruct v; split; solve [eexists; reflexivity | tauto | reflexivity]. }
  destruct (config !! "silence_threshold") as [v |].
  - destruct v as [| b | n | x | s | l | d]; cbn in Hc;
      try (rewrite Hc; cbn [mbind result_bind];
           split; [tauto | reflexivity]).
    + destruct b.
      * destruct Hc as [v' [_ Hc]]. rewrite Hc. cbn [mbind result_bind].
        destruct (Hstep _ Hc) as [H1 H2]. split; [tauto |].
        intros Hn. apply H2. tauto.
      * rewrite Hc. cbn [mbind result_bind].
        destruct (Hstep _ Hc) as [H1 H2]. split; [tauto |].
        intros Hn. apply H2. tauto.
    + destruct (0 <? n)%Z.
      * destruct Hc as [v' [_ Hc]]. rewrite Hc. cbn [mbind result_bind].
        destruct (Hstep _ Hc) as [H1 H2]. split; [tauto |].
        intros Hn. apply H2. tauto.
      * rewrite Hc. cbn [mbind result_bind].
        destruct (Hstep _ Hc) as [H1 H2]. split; [tauto |].
        intros Hn. apply H2. tauto.
    + destruct (PrimFloat.ltb 0 x).
      * destruct Hc as [v' [_ Hc]]. rewrite Hc. cbn [mbind result_bind].
        destruct (Hstep _ Hc) as [H1 H2]. split; [tauto |].
        intros Hn. apply H2. tauto.
      * rewrite Hc. cbn [mbind result_bind].
        destruct (Hstep _ Hc) as [H1 H2]. split; [tauto |].
        intros Hn. apply H2. tauto.
  - rewrite Hc. cbn [mbind result_bind].
    destruct (Hstep _ Hc) as [H1 H2]. split; [tauto |].
    intros Hn. apply H2. tauto.
Qed.

(** C10: [load_config] returns on every configuration whose values have
    the types it relies on, and in what it returns a positive
    [silence_threshold] [t] has become [-(t * 100)], the product being
    Python's: rounded to binary64 for a [float] (0.5 becomes -50.0),
    exact for an [int] (5 becomes -500, which is not -5); an absent
    threshold has become [-50] and an absent [min_silence_length]
    [0.5]. *)
Theorem load_config_threshold_times_100 (dirname : string -> string)
    (config_path : string) (config : gmap string Binary64.pyval) :
  (Binary64.loads config ->
   exists config',
     Binary64.load_config dirname config_path (Binary64.Parsed config)
     = Ok config')
  /\ (forall config',
        Binary64.load_config dirname config_path (Binary64.Parsed config)
        = Ok config' ->
        (forall t, config !! "silence_threshold" = Some (Binary64.PFloat t) ->
                   PrimFloat.ltb 0 t = true ->
                   config' !! "silence_threshold"
                   = Some (Binary64.PFloat (PrimFloat.opp (PrimFloat.mul t 100))))
        /\ (forall n, config !! "silence_threshold" = Some (Binary64.PInt n) ->
                      (0 < n)%Z ->
                      config' !! "silence_threshold"
                      = Some (Binary64.PInt (- (n * 100)))
                      /\ (- (n * 100) <> - n)%Z)
        /\ (config !! "silence_threshold" = None ->
            config' !! "silence_threshold" = Some (Binary64.PInt (-50)))
        /\ (config !! "min_silence_length" = None ->
            config' !! "min_silence_length" = Some (Binary64.PFloat 0.5))).
Proof.
  split; [apply load_config_f_outcome |].
  intros config' H.
  destruct (load_config_f_lookups _ _ _ _ H) as [c1 [E1 [Hthr Hmin]]].
  pose proof (set_silence_threshold_f_cases config) as Hc.
  split; [| split; [| split]].
  - intros t Ht Hpos. rewrite Ht in Hc. cbn in Hc. rewrite Hpos in Hc.
    destruct Hc as [v' [Hv' Hc]]. cbn in Hv'. injection Hv' as <-.
    rewrite Hc in E1. injection E1 as <-.
    rewrite Hthr, lookup_insert_eq, (abs_times_100 t Hpos). reflexivity.
  - intros n Hn Hpos. rewrite Hn in Hc. cbn in Hc.
    rewrite (proj2 (Z.ltb_lt 0 n) Hpos) in Hc.
    destruct Hc as [v' [Hv' Hc]]. cbn in Hv'. injection Hv' as <-.
    rewrite Hc in E1. injection E1 as <-.
    rewrite Hthr, lookup_insert_eq. split; [| lia].
    do 2 f_equal. lia.
  - intros Hnone. rewrite Hnone in Hc. rewrite Hc in E1. injection E1 as <-.
    rewrite Hthr. apply lookup_insert_eq.
  - intros Hnone. rewrite Hmin, Hnone. reflexivity.
Qed.

Lemma load_config_threshold_times_100_witness :
  Binary64.loads {[ "silence_threshold" := Binary64.PFloat 0.5 ]}
  /\ exists config',
       Binary64.load_config (fun p => p) "config.json"
         (Binary64.Parsed {[ "silence_threshold" := Binary64.PFloat 0.5 ]})
       = Ok config'
       /\ config' !! "silence_threshold" = Some (Binary64.PFloat (-50))
       /\ config' !! "min_silence_length" = Some (Binary64.PFloat 0.5).
Proof.
  assert (Hl : Binary64.loads {[ "silence_threshold" := Binary64.PFloat 0.5 ]}).
  { split; reflexivity. }
  split; [exact Hl |].
  destruct (load_config_threshold_times_100 (fun p => p) "config.json"
              {[ "silence_threshold" := Binary64.PFloat 0.5 ]})
    as [Hret Hval].
  destruct (Hret Hl) as [config' E]. exists config'.
  destruct (Hval config' E) as [Hf [_ [_ Hmin]]].
  split; [exact E |]. split.
  - rewrite (Hf 0.5%float); reflexivity.
  - apply Hmin. reflexivity.
Defined.

(** The product is the rounded one: the float nearest to 0.07 (written
    in hexadecimal) does not become -7 but the float just below it, and
    an [int] is scaled exactly. *)
Example load_config_threshold_examples :
  (exists v,
      Binary64.load_config (fun p => p) "config.json"
        (Binary64.Parsed
           {[ "silence_threshold" := Binary64.PFloat 0x1.1eb851eb851ecp-4 ]})
      ≫= (fun c => Ok (c !! "silence_threshold"))
      = Ok (Some (Binary64.PFloat v))
      /\ PrimFloat.ltb v (-7) = true)
  /\ Binary64.load_config (fun p => p) "config.json"
       (Binary64.Parsed {[ "silence_threshold" := Binary64.PInt 5 ]})
       ≫= (fun c => Ok (c !! "silence_threshold"))
     = Ok (Some (Binary64.PInt (-500))).
Proof. split; [eexists; split |]; reflexivity. Qed.

(** X1: whenever [load_config] returns, the configuration it returns has
    a [silence_threshold] for which [> 0] is false (a negative number,
    zero, or not a number), and a [min_silence_length]. *)
Theorem load_config_threshold_not_positive (dirname : string -> string)
    (config_path : string) (config config' : gmap string Binary64.pyval) :
  Binary64.load_config dirname config_path (Binary64.Parsed config) = Ok config' ->
  (exists v, config' !! "silence_threshold" = Some v
             /\ Binary64.gt_zero v = Ok false)
  /\ is_Some (config' !! "min_silence_length").
Proof.
  intros H.
  destruct (load_config_f_lookups _ _ _ _ H) as [c1 [E1 [Hthr Hmin]]].
  split; [| rewrite Hmin; eexists; reflexivity].
  rewrite Hthr. pose proof (set_silence_threshold_f_cases config) as Hc.
  destruct (config !! "silence_threshold") as [v |] eqn:Ev.
  - destruct (Binary64.gt_zero v) as [[|] | e] eqn:Eg.
    + destruct Hc as [v' [Hv' Hc]]. rewrite Hc in E1. injection E1 as <-.
      exists v'. split; [apply lookup_insert_eq |].
      destruct v as [| b | n | x | s | l | d]; cbn in Hv', Eg;
        try discriminate; injection Hv' as <-; cbn.
      * f_equal. apply Z.ltb_ge. lia.
      * f_equal. apply Z.ltb_ge. lia.
      * f_equal. apply neg_abs_not_positive.
    + rewrite Hc in E1. injection E1 as <-. exists v. split; assumption.
    + rewrite Hc in E1. discriminate.
  - rewrite Hc in E1. injection E1 as <-. exists (Binary64.PInt (-50)).
    split; [apply lookup_insert_eq | reflexivity].
Qed.

Lemma load_config_f_sample :
  Binary64.load_config (fun p => p) "config.json"
    (Binary64.Parsed {[ "silence_threshold" := Binary64.PFloat nan ]})
  = Ok (<["min_silence_length" := Binary64.PFloat 0.5]>
          {[ "silence_threshold" := Binary64.PFloat nan ]}).
Proof. reflexivity. Qed.

Lemma load_config_threshold_not_positive_witness :
  exists config',
    Binary64.load_config (fun p => p) "config.json"
      (Binary64.Parsed {[ "silence_threshold" := Binary64.PFloat nan ]})
    = Ok config'
    /\ exists v, config' !! "silence_threshold" = Some v
                 /\ Binary64.gt_zero v = Ok false.
Proof.
  eexists. split; [exact load_config_f_sample |].
  exact (proj1 (load_config_threshold_not_positive _ _ _ _ load_config_f_sample)).
Defined.

(** X5: on a file that holds a JSON object, [load_config] returns a
    configuration exactly when the threshold, if present, is a number
    ([int], [float] or [bool]) and, if the output path has to be derived,
    the input path is a string; in every other case ([null], a string, an
    array or an object as threshold; anything but a string as input path)
    it raises [TypeError]. *)
Theorem load_config_returns_iff (dirname : string -> string)
    (config_path : string) (config : gmap string Binary64.pyval) :
  (Binary64.loads config <->
   exists config',
     Binary64.load_config dirname config_path (Binary64.Parsed config)
     = Ok config')
  /\ (~ Binary64.loads config ->
      Binary64.load_config dirname config_path (Binary64.Parsed config)
      = Raise TypeError).
Proof.
  destruct (load_config_f_outcome dirname config_path config) as [Hok Hraise].
  split; [split; [exact Hok |] | exact Hraise].
  intros [config' H].
  assert (Hdec : Binary64.loads config \/ ~ Binary64.loads config).
  { unfold Binary64.loads.
    destruct (config !! "silence_threshold") as [[| | | | | |] |];
      destruct (config !! "output_path");
      destruct (config !! "input_path") as [[| | | | | |] |]; tauto. }
  destruct Hdec as [Hl | Hl]; [exact Hl |].
  rewrite (Hraise Hl) in H. discriminate.
Qed.

Lemma load_config_returns_iff_witness :
  ~ Binary64.loads {[ "silence_threshold" := Binary64.PNone ]}
  /\ Binary64.load_config (fun p => p) "config.json"
       (Binary64.Parsed {[ "silence_threshold" := Binary64.PNone ]})
     = Raise TypeError.
Proof.
  assert (Hnot : ~ Binary64.loads {[ "silence_threshold" := Binary64.PNone ]}).
  { intros [H _]. exact H. }
  split; [exact Hnot |].
  exact (proj2 (load_config_returns_iff (fun p => p) "config.json" _) Hnot).
Defined.
